(** * Conway's Game of Life on a torus: a shallow embedding of [life.cpp]

    The development follows the source file function by function:
    [countNbors], [life], [randBoard], [print], [checkArgs] and [main].
    Boards are [std::vector<std::vector<bool>>], modelled as lists of lists
    of booleans.  Every access [v[i]] of the source is an unchecked vector
    access; the embedding makes it [option]-valued, [None] standing for the
    undefined behaviour of an out-of-range access, of a division by zero or
    of a signed overflow.

    The first part holds the embedding, the second the vocabulary in which
    the properties are stated, the third the proofs. *)

From Stdlib Require Import ZArith Zquot Lia Ascii.
From stdpp Require Import base option list strings gmap.

Local Open Scope Z_scope.

(** * Part I: the program *)

(** ** Machine integers *)

Module CInt.

Definition INT_MAX : Z := 2 ^ 31 - 1.
Definition INT_MIN : Z := - 2 ^ 31.
Definition SIZE_MODULUS : Z := 2 ^ 64.

(** Conversion to [int] (32 bits, two's complement, modular). *)
Definition to_int (z : Z) : Z := (z + 2 ^ 31) mod 2 ^ 32 - 2 ^ 31.

(** Conversion to [size_t] (64 bits, modular). *)
Definition to_size_t (z : Z) : Z := z mod SIZE_MODULUS.

Definition in_int (z : Z) : bool := (INT_MIN <=? z) && (z <=? INT_MAX).

(** [a + b] on [int]: overflow is undefined. *)
Definition int_add (a b : Z) : option Z :=
  if in_int (a + b) then Some (a + b) else None.

(** [a % b] on [int]: truncated remainder, undefined for [b = 0] and for
    [INT_MIN % -1]. *)
Definition int_rem (a b : Z) : option Z :=
  if b =? 0 then None
  else if (a =? INT_MIN) && (b =? -1) then None
  else Some (Z.rem a b).

(** [a + n] with [a : int] and [n : size_t]: [a] is converted to [size_t],
    the sum wraps modulo 2^64. *)
Definition size_add (a n : Z) : Z := to_size_t (to_size_t a + n).

End CInt.
Import CInt.

(** ** Boards *)

(** [using Vector = std::vector<bool>;] and
    [using Matrix = std::vector<Vector>;] *)
Abbreviation Vector := (list bool).
Abbreviation Matrix := (list (list bool)).

(** A [for] loop over the indices of [range], with the variables that the
    body updates threaded as a state; the body may fail. *)
Fixpoint for_each {I S : Type} (body : I → S → option S) (range : list I) (s : S)
  : option S :=
  match range with
  | [] => Some s
  | i :: rest => s' ← body i s; for_each body rest s'
  end.

(** [board[y][x]] read, indices of type [size_t]. *)
Definition at2 (board : Matrix) (y x : nat) : option bool :=
  row ← board !! y; row !! x.

(** [board[y_p][x_p]] read with [int] indices: [operator[]] converts the
    index to [size_t]. *)
Definition at2_int (board : Matrix) (y_p x_p : Z) : option bool :=
  at2 board (Z.to_nat (to_size_t y_p)) (Z.to_nat (to_size_t x_p)).

(** [newBoard[y][x] = v;] *)
Definition assign2 (newBoard : Matrix) (y x : nat) (v : bool) : option Matrix :=
  row ← newBoard !! y;
  if decide (x < length row)%nat
  then Some (<[y := <[x := v]> row]> newBoard)
  else None.

(** ** [countNbors] *)

(** The two statements
<<
    int x_p = (static_cast<int>(x) + j) % dim;
    x_p = x_p < 0 ? x_p + board.size() : x_p;
>>
    (and the same for [y_p]).  Both branches of the conditional have type
    [size_t]; the result is converted back to [int]. *)
Definition wrapped (x : nat) (j : Z) (dim : Z) (size : nat) : option Z :=
  s ← int_add (to_int (Z.of_nat x)) j;
  x_p ← int_rem s dim;
  Some (to_int (if x_p <? 0 then size_add x_p (Z.of_nat size)
                else to_size_t x_p)).

(** The body of the inner loop of [countNbors].  There is no test on
    [(i, j)]: the iteration [i = 0], [j = 0] reads the cell [(x, y)]
    itself. *)
Definition countNbors_body (board : Matrix) (x y : nat) (dim : Z) (i j : Z)
    (count : nat) : option nat :=
  x_p ← wrapped x j dim (length board);
  y_p ← wrapped y i dim (length board);
  cell ← at2_int board y_p x_p;
  Some (if cell : bool then S count else count).

Definition countNbors (board : Matrix) (x y : nat) : option nat :=
  let dim := to_int (Z.of_nat (length board)) in
  for_each (fun i count =>
    for_each (fun j count => countNbors_body board x y dim i j count)
             (seqZ (-1) 3) count)
    (seqZ (-1) 3) 0%nat.

(** ** [life] *)

(** The body of the inner loop of [life]: [board] is only read, the writes
    go to [newBoard]. *)
Definition life_body (board : Matrix) (y x : nat) (newBoard : Matrix)
  : option Matrix :=
  count ← countNbors board x y;
  cell ← at2 board y x;
  if cell : bool then
    if ((count <? 2) || (3 <? count))%nat
    then assign2 newBoard y x false
    else Some newBoard
  else
    if (count =? 3)%nat
    then assign2 newBoard y x true
    else Some newBoard.

(** [life] takes the board by reference and ends with [board = newBoard;]:
    the result is the value that the caller's board has afterwards. *)
Definition life (board : Matrix) : option Matrix :=
  let newBoard := board in
  for_each (fun y newBoard =>
    for_each (fun x newBoard => life_body board y x newBoard)
             (seq 0 (length board)) newBoard)
    (seq 0 (length board)) newBoard.

(** ** [randBoard] *)

Section Random.

(** The generator of the C library: its hidden state, [srand] and [rand]. *)
Context {RandState : Type}.
Variable srand : Z → RandState.
Variable rand : RandState → Z * RandState.

(** [board[y][x] = static_cast<bool>(rand() % 2);] *)
Definition randBoard_body (y x : nat) (s : RandState * Matrix)
  : option (RandState * Matrix) :=
  let '(r, g) := rand s.1 in
  v ← int_rem r 2;
  board ← assign2 s.2 y x (negb (v =? 0));
  Some (g, board).

(** The assignments keep the number of rows, so that [board.size()] is the
    same at every test of the two loops. *)
Definition randBoard (s : RandState * Matrix) : option (RandState * Matrix) :=
  let size := length s.2 in
  for_each (fun y s =>
    for_each (fun x s => randBoard_body y x s) (seq 0 size) s)
    (seq 0 size) s.

End Random.

(** ** The terminal and [print] *)

(** The calls to ncurses and the pause, recorded in the order in which the
    program issues them. *)
Inductive curses_call : Type :=
  | initscr
  | start_color
  | init_pair (pair fg bg : Z)
  | noecho
  | curs_set (visibility : bool)
  | timeout (delay : Z)
  | move (y x : Z)
  | attron (pair : Z)
  | attroff (pair : Z)
  | addstr (s : string)
  | refresh
  | endwin
  | sleep_for (ms : Z).

Definition COLOR_GREEN : Z := 2.
Definition newline : string := String (ascii_of_nat 10) EmptyString.

(** The body of the inner loop of [print]. *)
Definition print_cell (board : Matrix) (y x : nat) (scr : list curses_call)
  : option (list curses_call) :=
  cell ← at2 board y x;
  Some (scr ++ (if cell : bool
                then [attron 1; addstr "  "; attroff 1]
                else [addstr "  "]) ++ [refresh]).

(** The body of the outer loop of [print]. *)
Definition print_row (board : Matrix) (y : nat) (scr : list curses_call)
  : option (list curses_call) :=
  scr ← for_each (print_cell board y) (seq 0 (length board)) scr;
  Some (scr ++ [addstr newline; refresh]).

Definition print_end : list curses_call :=
  [addstr "Press 'q' to quit."; refresh; sleep_for 500].

(** [print] takes the board by value and only reads it. *)
Definition print (board : Matrix) (scr : list curses_call)
  : option (list curses_call) :=
  scr ← for_each (print_row board) (seq 0 (length board)) scr;
  Some (scr ++ print_end).

(** [initialize], but for the seeding of the generator. *)
Definition initialize : list curses_call :=
  [initscr; start_color; init_pair 1 COLOR_GREEN COLOR_GREEN; noecho;
   curs_set false; timeout 0].

(** ** [std::stoi] and [checkArgs] *)

Inductive exception : Type := invalid_argument | out_of_range.

Definition is_space (c : ascii) : bool :=
  let n := nat_of_ascii c in
  ((n =? 32) || ((9 <=? n) && (n <=? 13)))%nat.

Fixpoint skip_space (s : list ascii) : list ascii :=
  match s with
  | c :: rest => if is_space c then skip_space rest else s
  | [] => []
  end.

Definition digit (c : ascii) : option Z :=
  let n := Z.of_nat (nat_of_ascii c) in
  if (48 <=? n) && (n <=? 57) then Some (n - 48) else None.

(** The longest prefix of decimal digits. *)
Fixpoint digits (s : list ascii) : list Z :=
  match s with
  | c :: rest => match digit c with
                 | Some d => d :: digits rest
                 | None => []
                 end
  | [] => []
  end.

Definition decimal (ds : list Z) : Z := foldl (fun acc d => 10 * acc + d) 0 ds.

(** [std::stoi(str)] of the C++ standard library, which the source calls
    without a handler: white space, an optional sign and the longest run of
    decimal digits; what follows the digits is ignored.  It throws
    [std::invalid_argument] when there is no digit and [std::out_of_range]
    when the value does not fit an [int]. *)
Definition stoi (str : string) : exception + Z :=
  let s := skip_space (String.list_ascii_of_string str) in
  let '(negative, s) :=
    match s with
    | "-"%char :: rest => (true, rest)
    | "+"%char :: rest => (false, rest)
    | _ => (false, s)
    end in
  match digits s with
  | [] => inl invalid_argument
  | ds => let v := if negative : bool then - decimal ds else decimal ds in
          if in_int v then inr v else inl out_of_range
  end.

(** [checkArgs]: [None] when its behaviour is undefined, else what it writes
    to [cout], and either the exception that leaves it or the value that it
    returns.  [argCount] is the length of [argVector].  The element
    [argVector[argCount]] is the null pointer that ends the vector: with
    [argCount = 0] the usage line writes the null [argVector[0]] to [cout],
    which is undefined. *)
Definition checkArgs (argVector : list string)
  : option (list string * (exception + bool)) :=
  if decide (length argVector ≠ 2%nat) then
    name ← argVector !! 0%nat;
    Some (["Usage: "; name; " <board dimension>"; newline], inr false)
  else
    a ← argVector !! 1%nat;
    match stoi a with
    | inl e => Some ([], inl e)
    | inr dim =>
        if (dim <? 0) || (40 <? dim)
        then Some (["Board dimensions should be (0, 40]"; newline], inr false)
        else Some ([], inr true)
    end.

(** ** The main loop and its two threads *)

(** Objects of type [Matrix] live in a store.  The variable [board] of
    [main] is one of them; the copy of the board that [std::thread] makes
    of a by-value argument is another. *)
Abbreviation loc := nat.

Record world : Type := World {
  store : gmap loc (list (list bool));
  screen : list curses_call
}.

Definition board_loc : loc := 0%nat.

(** A thread of the loop, by what it has left to do. *)
Inductive thread : Type :=
  | print_rows (arg : loc) (y : nat)
      (** [print] on the board stored at [arg], about to draw row [y] *)
  | life_loops (ref : loc)
      (** [life] on the board that [ref] refers to, about to run its loops *)
  | life_assign (ref : loc) (newBoard : Matrix)
      (** [life] about to execute [board = newBoard;] *)
  | finished.

(** The board object that a thread works on. *)
Definition thread_board (t : thread) : option loc :=
  match t with
  | print_rows arg _ => Some arg
  | life_loops ref => Some ref
  | life_assign ref _ => Some ref
  | finished => None
  end.

(** One step of a thread: a row of [print], or the final prompt and pause;
    the loops of [life], or its final assignment. *)
Definition thread_step (t : thread) (w : world) : option (thread * world) :=
  match t with
  | print_rows arg y =>
      board ← store w !! arg;
      if decide (y < length board)%nat then
        scr ← print_row board y (screen w);
        Some (print_rows arg (S y), World (store w) scr)
      else
        Some (finished, World (store w) (screen w ++ print_end))
  | life_loops ref =>
      board ← store w !! ref;
      newBoard ← life board;
      Some (life_assign ref newBoard, w)
  | life_assign ref newBoard =>
      Some (finished, World (<[ref := newBoard]> (store w)) (screen w))
  | finished => None
  end.

(** [thread t1(print, board); thread t2(life, ref(board));]  The
    constructor of [t1] copies [board] into a new object before the thread
    starts; [std::ref] hands [t2] the object [board] itself. *)
Definition spawn (w : world) : option (thread * thread * world) :=
  board ← store w !! board_loc;
  let arg := fresh (dom (store w)) in
  Some (print_rows arg 0, life_loops board_loc,
        World (<[arg := board]> (store w)) (screen w)).

(** The interleavings of two threads. *)
Inductive steps : thread * thread * world → thread * thread * world → Prop :=
  | steps_refl c : steps c c
  | steps_left t1 t2 w t1' w' c :
      thread_step t1 w = Some (t1', w') → steps (t1', t2, w') c →
      steps (t1, t2, w) c
  | steps_right t1 t2 w t2' w' c :
      thread_step t2 w = Some (t2', w') → steps (t1, t2', w') c →
      steps (t1, t2, w) c.

(** A thread run to its end without interruption. *)
Fixpoint run_thread (fuel : nat) (t : thread) (w : world) : option world :=
  match t, fuel with
  | finished, _ => Some w
  | _, O => None
  | _, S fuel => '(t', w') ← thread_step t w; run_thread fuel t' w'
  end.

(** [life(board);] in [main]. *)
Definition life_at (l : loc) (w : world) : option world :=
  board ← store w !! l;
  newBoard ← life board;
  Some (World (<[l := newBoard]> (store w)) (screen w)).

(** The body of the loop of [main], the threads run one after the other in
    the order of the two [join]s.  The argument of [t1] dies with it. *)
Definition loop_body (w : world) : option world :=
  w ← life_at board_loc (World (store w) (screen w ++ [move 0 0]));
  '(t1, t2, w) ← spawn w;
  board ← store w !! board_loc;
  w ← run_thread (length board + 1) t1 w;
  w ← run_thread 2 t2 w;
  Some (World (from_option (fun arg => delete arg (store w)) (store w)
                           (thread_board t1))
              (screen w)).

Inductive loop_result : Type :=
  | quit (w : world)        (** [getch] returned ['q'] *)
  | undefined               (** undefined behaviour in the body *)
  | waiting (w : world).    (** the recorded input is used up *)

(** [while (getch() != 'q') { ... }] on the values that the successive
    calls of [getch] return. *)
Fixpoint main_loop (keys : list Z) (w : world) : loop_result :=
  match keys with
  | [] => waiting w
  | key :: keys =>
      if key =? 113 then quit w
      else match loop_body w with
           | Some w => main_loop keys w
           | None => undefined
           end
  end.

Definition EXIT_SUCCESS : Z := 0.
Definition EXIT_FAILURE : Z := 1.

Inductive outcome : Type :=
  | exited (status : Z)
  | terminated (e : exception)   (** [std::terminate]: uncaught exception *)
  | undefined_behaviour
  | running.

Section Main.

Context {RandState : Type}.
Variable srand : Z → RandState.
Variable rand : RandState → Z * RandState.

(** [main], given the command line, the value of [time(0)] and the values
    that [getch] returns: what is written to [cout], the calls to the
    terminal and how the program ends. *)
Definition main (argVector : list string) (now : Z) (keys : list Z)
  : list string * list curses_call * outcome :=
  match checkArgs argVector with
  | None => ([], [], undefined_behaviour)
  | Some (out, inl e) => (out, [], terminated e)
  | Some (out, inr false) => (out, [], exited EXIT_FAILURE)
  | Some (out, inr true) =>
      match stoi <$> argVector !! 1%nat with
      | None => (out, [], undefined_behaviour)
      | Some (inl e) => (out, [], terminated e)
      | Some (inr d) =>
          let dim := Z.to_nat (to_size_t d) in
          let board := replicate dim (replicate dim false) in
          match randBoard rand (srand now, board) with
          | None => (out, initialize, undefined_behaviour)
          | Some (_, board) =>
              match main_loop keys (World {[board_loc := board]} initialize) with
              | quit w => (out, screen w ++ [endwin], exited EXIT_SUCCESS)
              | undefined => (out, initialize, undefined_behaviour)
              | waiting w => (out, screen w, running)
              end
          end
      end
  end.

End Main.

(** * Part II: the vocabulary of the properties *)

(** ** Reading a board as a function of the coordinates *)

Definition square (N : nat) (b : Matrix) : Prop :=
  length b = N ∧ Forall (fun row => length row = N) b.

(** The state of the cell in row [y], column [x]. *)
Definition cell (b : Matrix) (y x : nat) : bool := default false (at2 b y x).

(** The board with [f y x] in row [y], column [x]. *)
Definition tabulate (N : nat) (f : nat → nat → bool) : Matrix :=
  (fun y => f y <$> seq 0 N) <$> seq 0 N.

(** The coordinate [x + d] on a circle of [N] positions. *)
Definition torus (N : nat) (x : nat) (d : Z) : nat :=
  Z.to_nat ((Z.of_nat x + d) mod Z.of_nat N).

(** ** Neighbourhoods *)

(** The offsets [(dy, dx)] of a 3 by 3 block, in the order of the loops of
    [countNbors]. *)
Definition offsets9 : list (Z * Z) :=
  dy ← seqZ (-1) 3; dx ← seqZ (-1) 3; [(dy, dx)].

(** The same without [(0, 0)]: the 8 surrounding positions. *)
Definition offsets8 : list (Z * Z) :=
  filter (fun d => d ≠ (0, 0)) offsets9.

Definition alive_around (offsets : list (Z * Z)) (N : nat) (b : Matrix)
    (x y : nat) : nat :=
  sum_list ((fun d => Nat.b2n (cell b (torus N y d.1) (torus N x d.2)))
              <$> offsets).

(** The number of alive cells among the 8 cells that surround [(x, y)] on
    the torus: the neighbour count of the rules of the game. *)
Definition nbors8 : nat → Matrix → nat → nat → nat := alive_around offsets8.

(** The same count over the full 3 by 3 block, centre included. *)
Definition nbors9 : nat → Matrix → nat → nat → nat := alive_around offsets9.

(** ** The generation step, cell by cell *)

(** The rules of the game on a neighbour count: an alive cell stays alive
    with 2 or 3 alive neighbours, a dead cell becomes alive with exactly
    3. *)
Definition rule (alive : bool) (neighbours : nat) : bool :=
  if alive
  then ((neighbours =? 2) || (neighbours =? 3))%nat
  else (neighbours =? 3)%nat.

(** The new state of a cell as [life_body] decides it, from the count that
    [countNbors] returns. *)
Definition next_cell (N : nat) (b : Matrix) (y x : nat) : bool :=
  let count := nbors9 N b x y in
  if cell b y x
  then negb ((count <? 2) || (3 <? count))%nat
  else (count =? 3)%nat.

Definition next_board (N : nat) (b : Matrix) : Matrix :=
  tabulate N (next_cell N b).

(** The cells of an [N] by [N] board in the order of the two loops of
    [life]: row by row, each row from left to right. *)
Definition cells (N : nat) : list (nat * nat) :=
  y ← seq 0 N; x ← seq 0 N; [(y, x)].

(** [life] with the cells visited in a given order. *)
Definition life_in_order (order : list (nat * nat)) (board : Matrix)
  : option Matrix :=
  for_each (fun c newBoard => life_body board c.1 c.2 newBoard) order board.

(** The state of [newBoard] in [life] after the cells of [visited] have
    been treated: those cells hold their new state, the others still hold
    the state copied from [board]. *)
Definition partly_updated (N : nat) (b : Matrix) (visited : list (nat * nat))
    (newBoard : Matrix) : Prop :=
  square N newBoard ∧
  ∀ y x, cell newBoard y x
         = if decide ((y, x) ∈ visited) then next_cell N b y x else cell b y x.

(** ** Translation on the torus *)

(** The board whose every cell is moved by [(sx, sy)]: the cell in column
    [x], row [y] goes to column [(x + sx) mod N], row [(y + sy) mod N]. *)
Definition translate (sx sy : Z) (b : Matrix) : Matrix :=
  let N := length b in
  tabulate N (fun y x => cell b (torus N y (- sy)) (torus N x (- sx))).

(** ** Some boards *)

Definition blinker_h : Matrix :=
  [ [false; false; false; false; false];
    [false; false; false; false; false];
    [false; true;  true;  true;  false];
    [false; false; false; false; false];
    [false; false; false; false; false] ].

Definition blinker_v : Matrix :=
  [ [false; false; false; false; false];
    [false; false; true;  false; false];
    [false; false; true;  false; false];
    [false; false; true;  false; false];
    [false; false; false; false; false] ].

(** A single alive cell in the middle of a 3 by 3 board. *)
Definition lonely : Matrix :=
  [ [false; false; false];
    [false; true;  false];
    [false; false; false] ].

(** A 2 by 2 block on a 5 by 5 board, and the empty board. *)
Definition block : Matrix :=
  [ [false; false; false; false; false];
    [false; true;  true;  false; false];
    [false; true;  true;  false; false];
    [false; false; false; false; false];
    [false; false; false; false; false] ].

Definition empty5 : Matrix := replicate 5 (replicate 5 false).

(** What [life] makes of the horizontal blinker, and of that in turn. *)
Definition plus_sign : Matrix :=
  [ [false; false; false; false; false];
    [false; false; true;  false; false];
    [false; true;  true;  true;  false];
    [false; false; true;  false; false];
    [false; false; false; false; false] ].

Definition four_corners : Matrix :=
  [ [false; false; false; false; false];
    [false; true;  false; true;  false];
    [false; false; false; false; false];
    [false; true;  false; true;  false];
    [false; false; false; false; false] ].

(** ** What [print] draws *)

Definition cell_calls (alive : bool) : list curses_call :=
  (if alive then [attron 1; addstr "  "; attroff 1] else [addstr "  "])
  ++ [refresh].

Definition row_calls (b : Matrix) (y : nat) : list curses_call :=
  (x ← seq 0 (length b); cell_calls (cell b y x)) ++ [addstr newline; refresh].

(** The rows above row [y]. *)
Definition rows_above (b : Matrix) (y : nat) : list curses_call :=
  y' ← seq 0 y; row_calls b y'.

(** A whole frame: the rows, the prompt and the pause. *)
Definition frame (b : Matrix) : list curses_call :=
  rows_above b (length b) ++ print_end.

(** ** The threads of one iteration *)

(** Each of the two threads works on a board object of its own, different
    from the board of [main]. *)
Definition independent_copies (w : world) : Prop :=
  ∀ t1 t2 w', spawn w = Some (t1, t2, w') →
    ∀ t, t ∈ [t1; t2] → ∃ l, thread_board t = Some l ∧ l ≠ board_loc.

(** The states of the two threads and of the world that an interleaving can
    reach from the state after [spawn]: [print] has drawn some rows of its
    own copy [B1]; [life] has or has not yet assigned [B2] to the board of
    [main]. *)
Definition reached (arg : loc) (B1 B2 : Matrix) (σ : gmap loc (list (list bool)))
    (scr : list curses_call) (c : thread * thread * world) : Prop :=
  let '(t1, t2, w) := c in
  ((∃ y, t1 = print_rows arg y ∧ (y ≤ length B1)%nat
         ∧ screen w = scr ++ rows_above B1 y)
   ∨ (t1 = finished ∧ screen w = scr ++ frame B1))
  ∧ ((t2 = life_loops board_loc ∧ store w = σ)
     ∨ (t2 = life_assign board_loc B2 ∧ store w = σ)
     ∨ (t2 = finished ∧ store w = <[board_loc := B2]> σ)).

(** ** Uniform boards, transposition and generations *)

(** The [N] by [N] board all of whose cells are [v]. *)
Definition uniform (N : nat) (v : bool) : Matrix := replicate N (replicate N v).

(** The board mirrored in its diagonal: rows become columns. *)
Definition transpose (b : Matrix) : Matrix :=
  tabulate (length b) (fun y x => cell b x y).

(** [n] calls of [life] in a row. *)
Fixpoint generations (n : nat) (b : Matrix) : option Matrix :=
  match n with
  | O => Some b
  | S n => b' ← life b; generations n b'
  end.

(** The number of alive cells of a board. *)
Definition population (b : Matrix) : nat :=
  sum_list ((fun y => sum_list ((fun x => Nat.b2n (cell b y x))
                                  <$> seq 0 (length b)))
              <$> seq 0 (length b)).

(** ** Counting the calls to the terminal *)

Definition is_attron (c : curses_call) : bool :=
  match c with attron _ => true | _ => false end.

Definition is_block (c : curses_call) : bool :=
  match c with addstr s => bool_decide (s = "  ") | _ => false end.

Definition count_calls (p : curses_call → bool) (calls : list curses_call) : nat :=
  sum_list ((fun c => Nat.b2n (p c)) <$> calls).

(** What iteration [i] of the loop of [main] sends to the terminal when the
    loop starts from the board [B]: the cursor goes to the origin and the
    frame of generation [2 i + 1] is drawn. *)
Definition shown (B : Matrix) (i : nat) : list curses_call :=
  [move 0 0] ++ from_option frame [] (generations (2 * i + 1) B).

Definition drawn (k : nat) (B : Matrix) : list curses_call :=
  i ← seq 0 k; shown B i.

(** ** The generator *)

Section Generator.

Context {RandState : Type}.
Variable rand : RandState → Z * RandState.

(** The state of the generator after [k] calls of [rand]. *)
Fixpoint rand_state (k : nat) (g : RandState) : RandState :=
  match k with
  | O => g
  | S k => (rand (rand_state k g)).2
  end.

(** The value that call number [k] returns, numbered from 0. *)
Definition rand_value (k : nat) (g : RandState) : Z :=
  (rand (rand_state k g)).1.

End Generator.

(** * Part III: proofs *)

Section Machine_arithmetic.

Lemma to_int_small z : INT_MIN ≤ z ≤ INT_MAX → to_int z = z.
Proof.
  unfold INT_MIN, INT_MAX, to_int. intros H.
  rewrite Z.mod_small; lia.
Qed.

Lemma to_size_t_small z : 0 ≤ z < SIZE_MODULUS → to_size_t z = z.
Proof. intros H. unfold to_size_t. by rewrite Z.mod_small. Qed.

Lemma size_add_neg a n :
  - n ≤ a < 0 → 0 ≤ n < 2 ^ 63 → size_add a n = a + n.
Proof.
  unfold size_add, to_size_t, SIZE_MODULUS. intros Ha Hn.
  rewrite Zplus_mod_idemp_l, Z.mod_small; lia.
Qed.

Lemma int_add_small a b :
  INT_MIN ≤ a + b ≤ INT_MAX → int_add a b = Some (a + b).
Proof.
  unfold int_add, in_int. intros H.
  destruct (Z.leb_spec INT_MIN (a + b)), (Z.leb_spec (a + b) INT_MAX);
    simpl; done || lia.
Qed.

Lemma int_rem_pos a b : 0 < b → int_rem a b = Some (Z.rem a b).
Proof.
  unfold int_rem. intros H.
  destruct (Z.eqb_spec b 0); [lia |].
  destruct (Z.eqb_spec b (-1)); [lia |].
  by rewrite andb_false_r.
Qed.

(** On the range that [countNbors] uses, wrapping is reduction modulo the
    dimension. *)
Lemma wrapped_mod (N x : nat) (j : Z) :
  (x < N)%nat → Z.of_nat N ≤ INT_MAX → -1 ≤ j ≤ 1 →
  wrapped x j (to_int (Z.of_nat N)) N
  = Some ((Z.of_nat x + j) mod Z.of_nat N).
Proof.
  intros Hx HN Hj. unfold wrapped.
  assert (HM : INT_MAX = 2147483647) by reflexivity.
  assert (Hm : INT_MIN = -2147483648) by reflexivity.
  rewrite !to_int_small by lia.
  rewrite int_add_small by lia. simpl.
  rewrite int_rem_pos by lia. simpl. f_equal.
  destruct (decide (Z.of_nat x + j = -1)) as [Hneg | Hpos].
  - rewrite Hneg. destruct (decide (N = 1%nat)) as [-> | HN1]; [reflexivity |].
    change (-1) with (- (1)).
    rewrite Z.rem_opp_l, Z.rem_small by lia. simpl.
    rewrite size_add_neg, to_int_small by lia.
    apply Z.mod_unique with (-1); lia.
  - rewrite Z.rem_mod_nonneg by lia.
    pose proof (Z.mod_pos_bound (Z.of_nat x + j) (Z.of_nat N)) as Hb.
    destruct (Z.ltb_spec ((Z.of_nat x + j) mod Z.of_nat N) 0); [lia |].
    rewrite to_size_t_small, to_int_small; unfold SIZE_MODULUS; lia.
Qed.

End Machine_arithmetic.

Section Board_facts.

Context (N : nat) (b : Matrix) (Hsq : square N b).

Lemma square_length : length b = N.
Proof using Hsq. by destruct Hsq. Qed.

Lemma square_row y row : b !! y = Some row → length row = N.
Proof using Hsq.
  intros Hrow. destruct Hsq as [_ Hrows].
  by apply (Forall_lookup_1 _ _ _ _ Hrows Hrow).
Qed.

Lemma at2_cell y x : (y < N)%nat → (x < N)%nat → at2 b y x = Some (cell b y x).
Proof using Hsq.
  intros Hy Hx. unfold cell, at2.
  destruct (lookup_lt_is_Some_2 b y) as [row Hrow]; [by rewrite square_length |].
  rewrite Hrow. simpl.
  destruct (lookup_lt_is_Some_2 row x) as [v Hv];
    [by rewrite (square_row y row) |].
  by rewrite Hv.
Qed.

Lemma at2_int_cell (y_p x_p : Z) :
  0 ≤ y_p < Z.of_nat N → 0 ≤ x_p < Z.of_nat N → Z.of_nat N ≤ INT_MAX →
  at2_int b y_p x_p = Some (cell b (Z.to_nat y_p) (Z.to_nat x_p)).
Proof using Hsq.
  intros Hy Hx HN. unfold at2_int.
  assert (HM : INT_MAX = 2147483647) by reflexivity.
  rewrite !to_size_t_small by (unfold SIZE_MODULUS; lia).
  apply at2_cell; lia.
Qed.

Lemma torus_lt x d : (0 < N)%nat → (torus N x d < N)%nat.
Proof.
  intros HN. unfold torus.
  pose proof (Z.mod_pos_bound (Z.of_nat x + d) (Z.of_nat N)). lia.
Qed.

Lemma torus_0 x : (x < N)%nat → torus N x 0 = x.
Proof. intros Hx. unfold torus. rewrite Z.add_0_r, Z.mod_small; lia. Qed.

Lemma countNbors_body_spec x y i j count :
  (x < N)%nat → (y < N)%nat → Z.of_nat N ≤ INT_MAX →
  -1 ≤ i ≤ 1 → -1 ≤ j ≤ 1 →
  countNbors_body b x y (to_int (Z.of_nat N)) i j count
  = Some (Nat.b2n (cell b (torus N y i) (torus N x j)) + count)%nat.
Proof using Hsq.
  intros Hx Hy HN Hi Hj. unfold countNbors_body.
  rewrite square_length, !wrapped_mod by done. simpl.
  pose proof (Z.mod_pos_bound (Z.of_nat x + j) (Z.of_nat N)).
  pose proof (Z.mod_pos_bound (Z.of_nat y + i) (Z.of_nat N)).
  rewrite at2_int_cell by lia. simpl.
  unfold torus. by destruct (cell b _ _).
Qed.

(** What [countNbors] computes on a square board: the alive cells of the
    3 by 3 block around [(x, y)], the centre cell included. *)
Lemma countNbors_nbors9 x y :
  (x < N)%nat → (y < N)%nat → Z.of_nat N ≤ INT_MAX →
  countNbors b x y = Some (nbors9 N b x y).
Proof using Hsq.
  intros Hx Hy HN. unfold countNbors. rewrite square_length.
  change (seqZ (-1) 3) with [-1; 0; 1]. cbn [for_each].
  repeat (rewrite countNbors_body_spec by (done || lia); cbn [mbind option_bind]).
  f_equal. unfold nbors9, alive_around.
  change offsets9 with
    [(-1, -1); (-1, 0); (-1, 1); (0, -1); (0, 0); (0, 1); (1, -1); (1, 0); (1, 1)].
  cbn [fmap list_fmap sum_list sum_list_with fst snd id]. lia.
Qed.

(** The centre cell is one of the nine: the count of [countNbors] is the
    neighbour count plus one on an alive cell. *)
Lemma nbors9_nbors8 x y :
  (x < N)%nat → (y < N)%nat →
  nbors9 N b x y = (nbors8 N b x y + Nat.b2n (cell b y x))%nat.
Proof.
  intros Hx Hy. unfold nbors9, nbors8, alive_around.
  change offsets9 with
    [(-1, -1); (-1, 0); (-1, 1); (0, -1); (0, 0); (0, 1); (1, -1); (1, 0); (1, 1)].
  change offsets8 with
    [(-1, -1); (-1, 0); (-1, 1); (0, -1); (0, 1); (1, -1); (1, 0); (1, 1)].
  cbn [fmap list_fmap sum_list sum_list_with fst snd id].
  rewrite !torus_0 by done. lia.
Qed.

End Board_facts.

Lemma for_each_app {I S : Type} (body : I → S → option S) (l1 l2 : list I) (s : S) :
  for_each body (l1 ++ l2) s = s' ← for_each body l1 s; for_each body l2 s'.
Proof.
  revert s. induction l1 as [| i l1 IH]; intros s; simpl; [done |].
  destruct (body i s) as [s' |]; simpl; [apply IH | done].
Qed.

Section Loops.

Context {I J S : Type}.

Lemma for_each_pairs (body : I → J → S → option S) (js : list J) (s : S) i :
  for_each (fun c => body c.1 c.2) ((fun j => (i, j)) <$> js) s
  = for_each (body i) js s.
Proof.
  revert s. induction js as [| j js IH]; intros s; simpl; [done |].
  destruct (body i j s); simpl; [apply IH | done].
Qed.

(** Two nested loops are one loop over the pairs of indices. *)
Lemma for_each_nested (body : I → J → S → option S)
    (ks : list I) (js : list J) (s : S) :
  for_each (fun i s => for_each (body i) js s) ks s
  = for_each (fun c => body c.1 c.2) (i ← ks; (fun j => (i, j)) <$> js) s.
Proof.
  revert s. induction ks as [| i ks IH]; intros s; [done |].
  rewrite bind_cons, for_each_app, for_each_pairs. cbn [for_each].
  destruct (for_each (body i) js s); simpl; [apply IH | done].
Qed.

End Loops.

Lemma bind_pairs {I J : Type} (ks : list I) (js : list J) :
  (i ← ks; j ← js; [(i, j)]) = (i ← ks; (fun j => (i, j)) <$> js).
Proof.
  induction ks as [| i ks IH]; [done |].
  by rewrite !bind_cons, IH.
Qed.

Lemma life_row_major (board : Matrix) :
  life board = life_in_order (cells (length board)) board.
Proof.
  unfold life, life_in_order, cells. rewrite bind_pairs.
  apply (for_each_nested (life_body board)).
Qed.

Lemma elem_of_cells N y x : (y, x) ∈ cells N ↔ (y < N)%nat ∧ (x < N)%nat.
Proof.
  unfold cells. rewrite list_elem_of_bind. split.
  - intros (y' & Hin & Hy). apply list_elem_of_bind in Hin as (x' & Hin & Hx).
    apply list_elem_of_singleton in Hin. inversion Hin; subst.
    apply elem_of_seq in Hy, Hx. lia.
  - intros [Hy Hx]. exists y. split; [| apply elem_of_seq; lia].
    apply list_elem_of_bind. exists x. split; [| apply elem_of_seq; lia].
    by apply list_elem_of_singleton.
Qed.

Section Tabulate.

Context (N : nat).

Lemma tabulate_square f : square N (tabulate N f).
Proof.
  unfold square, tabulate. split.
  - by rewrite length_fmap, length_seq.
  - apply Forall_fmap, Forall_forall. intros y _. simpl.
    by rewrite length_fmap, length_seq.
Qed.

Lemma cell_tabulate f y x :
  (y < N)%nat → (x < N)%nat → cell (tabulate N f) y x = f y x.
Proof.
  intros Hy Hx. unfold cell, at2, tabulate.
  rewrite list_lookup_fmap, lookup_seq_lt by done. simpl.
  by rewrite list_lookup_fmap, lookup_seq_lt.
Qed.

(** Two square boards with the same cells are the same board. *)
Lemma square_ext (b1 b2 : Matrix) :
  square N b1 → square N b2 →
  (∀ y x, (y < N)%nat → (x < N)%nat → cell b1 y x = cell b2 y x) →
  b1 = b2.
Proof.
  intros Hsq1 Hsq2 Hcells.
  apply (list_eq_same_length _ _ N);
    [apply (square_length _ _ Hsq2) | apply (square_length _ _ Hsq1) |].
  intros y row1 row2 Hy Hrow1 Hrow2.
  apply (list_eq_same_length _ _ N);
    [by apply (square_row _ _ Hsq2 y) | by apply (square_row _ _ Hsq1 y) |].
  intros x v1 v2 Hx Hv1 Hv2.
  specialize (Hcells y x Hy Hx). unfold cell, at2 in Hcells.
  rewrite Hrow1, Hrow2 in Hcells. simpl in Hcells.
  by rewrite Hv1, Hv2 in Hcells.
Qed.

Lemma assign2_spec (newBoard : Matrix) y x v :
  square N newBoard → (y < N)%nat → (x < N)%nat →
  ∃ newBoard',
    assign2 newBoard y x v = Some newBoard' ∧ square N newBoard' ∧
    ∀ y' x', cell newBoard' y' x'
             = if decide (y' = y ∧ x' = x) then v else cell newBoard y' x'.
Proof.
  intros Hsq Hy Hx. unfold assign2.
  destruct (lookup_lt_is_Some_2 newBoard y) as [row Hrow];
    [by rewrite (square_length _ _ Hsq) |].
  pose proof (square_row _ _ Hsq y row Hrow) as Hlen.
  rewrite Hrow. simpl. rewrite decide_True by lia.
  eexists. split; [done |]. split.
  - destruct Hsq as [HN Hrows]. split; [by rewrite length_insert |].
    apply Forall_insert; [done | by rewrite length_insert].
  - intros y' x'. unfold cell, at2.
    destruct (decide (y' = y)) as [-> | Hne].
    + rewrite list_lookup_insert_eq by (rewrite (square_length _ _ Hsq); lia).
      rewrite Hrow. simpl.
      destruct (decide (x' = x)) as [-> | Hnx].
      * rewrite list_lookup_insert_eq, decide_True by (done || lia). done.
      * rewrite list_lookup_insert_ne, decide_False by (done || tauto). done.
    + rewrite list_lookup_insert_ne, decide_False by (done || tauto). done.
Qed.

End Tabulate.

Section Generation.

Context (N : nat) (b : Matrix) (Hsq : square N b).
Context (HN : Z.of_nat N ≤ INT_MAX).

Lemma life_body_step visited newBoard y x :
  (y < N)%nat → (x < N)%nat → partly_updated N b visited newBoard →
  ∃ newBoard', life_body b y x newBoard = Some newBoard'
               ∧ partly_updated N b ((y, x) :: visited) newBoard'.
Proof using Hsq HN.
  intros Hy Hx [Hsq' Hcells]. unfold life_body.
  rewrite (countNbors_nbors9 N b Hsq), (at2_cell N b Hsq) by done. simpl.
  assert (Hother : ∀ nb' : Matrix, square N nb' →
    (∀ y' x', cell nb' y' x' = if decide (y' = y ∧ x' = x)
                                then next_cell N b y x else cell newBoard y' x') →
    partly_updated N b ((y, x) :: visited) nb').
  { intros nb' Hsq'' Hnb'. split; [done |]. intros y' x'. rewrite Hnb', Hcells.
    destruct (decide (y' = y ∧ x' = x)) as [[-> ->] | Hne].
    - rewrite decide_True; [done | by left].
    - destruct (decide ((y', x') ∈ visited)) as [Hin | Hnin].
      + rewrite decide_True; [done | by right].
      + rewrite decide_False; [done |].
        intros [Heq | Hin]%elem_of_cons; [| done]. inversion Heq; tauto. }
  assert (Hkeep : cell newBoard y x = next_cell N b y x →
                  partly_updated N b ((y, x) :: visited) newBoard).
  { intros Hsame. apply Hother; [done |]. intros y' x'.
    destruct (decide (y' = y ∧ x' = x)) as [[-> ->] | Hne]; done. }
  assert (Hnow : cell newBoard y x = next_cell N b y x ∨
                 cell newBoard y x = cell b y x).
  { rewrite Hcells. destruct (decide ((y, x) ∈ visited)); auto. }
  unfold next_cell in *.
  destruct (cell b y x) eqn:Hcell.
  - destruct ((nbors9 N b x y <? 2)%nat || (3 <? nbors9 N b x y)%nat) eqn:Hcount.
    + destruct (assign2_spec N newBoard y x false Hsq' Hy Hx)
        as (nb' & -> & Hsq'' & Hnb'). eauto.
    + eexists. split; [done |]. apply Hkeep. by destruct Hnow as [-> | ->].
  - destruct (nbors9 N b x y =? 3)%nat eqn:Hcount.
    + destruct (assign2_spec N newBoard y x true Hsq' Hy Hx)
        as (nb' & -> & Hsq'' & Hnb'). eauto.
    + eexists. split; [done |]. apply Hkeep. by destruct Hnow as [-> | ->].
Qed.

Lemma life_in_order_step order : ∀ visited newBoard,
  (∀ y x, (y, x) ∈ order → (y < N)%nat ∧ (x < N)%nat) →
  partly_updated N b visited newBoard →
  ∃ newBoard',
    for_each (fun c nb => life_body b c.1 c.2 nb) order newBoard = Some newBoard'
    ∧ partly_updated N b (reverse order ++ visited) newBoard'.
Proof using Hsq HN.
  induction order as [| [y x] order IH]; intros visited newBoard Hrange Hinv.
  - by exists newBoard.
  - destruct (Hrange y x) as [Hy Hx]; [by left |].
    destruct (life_body_step visited newBoard y x Hy Hx Hinv) as (nb1 & Hnb1 & Hinv1).
    destruct (IH ((y, x) :: visited) nb1) as (nb2 & Hnb2 & Hinv2); [| done |].
    { intros y' x' Hin. apply Hrange. by right. }
    exists nb2. cbn [for_each fst snd]. rewrite Hnb1. simpl.
    split; [done |]. by rewrite reverse_cons, <- app_assoc.
Qed.

(** Whatever the order in which the cells are visited, as long as every
    cell of the board is visited, the result is [next_board]. *)
Lemma life_in_order_spec order :
  (∀ y x, (y, x) ∈ order ↔ (y < N)%nat ∧ (x < N)%nat) →
  life_in_order order b = Some (next_board N b).
Proof using Hsq HN.
  intros Horder. unfold life_in_order.
  destruct (life_in_order_step order [] b) as (nb & -> & Hsq' & Hcells).
  { intros y x Hin. by apply Horder. }
  { split; [done |]. intros y x. rewrite decide_False; [done | apply not_elem_of_nil]. }
  f_equal. apply (square_ext N); [done | apply tabulate_square |].
  intros y x Hy Hx. unfold next_board. rewrite cell_tabulate, Hcells by done.
  rewrite decide_True; [done |].
  rewrite app_nil_r, elem_of_reverse. by apply Horder.
Qed.

Lemma life_spec : life b = Some (next_board N b).
Proof using Hsq HN.
  rewrite life_row_major, (square_length N b Hsq).
  apply life_in_order_spec. intros y x. apply elem_of_cells.
Qed.

End Generation.

(** ** The count of [countNbors] and the rules *)

Section Rules.

Context (N : nat) (b : Matrix) (Hsq : square N b).
Context (HN : Z.of_nat N ≤ INT_MAX).

(** [countNbors] returns the neighbour count, plus one when the cell is
    alive. *)
Lemma countNbors_nbors8 x y :
  (x < N)%nat → (y < N)%nat →
  countNbors b x y = Some (nbors8 N b x y + Nat.b2n (cell b y x))%nat.
Proof using Hsq HN.
  intros Hx Hy.
  by rewrite (countNbors_nbors9 N b Hsq), (nbors9_nbors8 N b).
Qed.

(** The step that [life] performs, in terms of the neighbour count: a dead
    cell becomes alive with exactly 3 alive neighbours, an alive cell stays
    alive with 1 or 2 alive neighbours. *)
Lemma next_cell_nbors8 y x :
  (y < N)%nat → (x < N)%nat →
  next_cell N b y x
  = if cell b y x
    then ((nbors8 N b x y =? 1) || (nbors8 N b x y =? 2))%nat
    else (nbors8 N b x y =? 3)%nat.
Proof.
  intros Hy Hx. unfold next_cell. rewrite (nbors9_nbors8 N b) by done.
  destruct (cell b y x); simpl; [| by rewrite Nat.add_0_r].
  generalize (nbors8 N b x y). intros n.
  do 4 (destruct n as [| n]; [done |]). done.
Qed.

Lemma life_cell y x :
  (y < N)%nat → (x < N)%nat →
  ∃ b', life b = Some b' ∧
        cell b' y x
        = if cell b y x
          then ((nbors8 N b x y =? 1) || (nbors8 N b x y =? 2))%nat
          else (nbors8 N b x y =? 3)%nat.
Proof using Hsq HN.
  intros Hy Hx. exists (next_board N b). split; [by apply life_spec |].
  unfold next_board. rewrite cell_tabulate by done. by apply next_cell_nbors8.
Qed.

End Rules.

(** C1.  The count that [countNbors] returns includes the cell itself: for
    the only alive cell of [lonely], none of whose 8 neighbours is alive,
    it is 1 and not 0. *)
Theorem countNbors_counts_the_cell_itself :
  countNbors lonely 1 1 = Some 1%nat ∧ nbors8 3 lonely 1 1 = 0%nat.
Proof. split; reflexivity. Qed.

(** C2.  An alive cell with 3 alive neighbours does not stay alive: every
    cell of the block has 3 alive neighbours, which the rules keep alive,
    and one step of [life] leaves no alive cell. *)
Theorem life_kills_the_block :
  cell block 1 1 = true ∧ nbors8 5 block 1 1 = 3%nat ∧
  rule (cell block 1 1) (nbors8 5 block 1 1) = true ∧
  life block = Some empty5 ∧ cell empty5 1 1 = false.
Proof. repeat split; reflexivity. Qed.

(** C5.  One step of [life] turns the horizontal blinker into a plus sign,
    not into the vertical blinker: the two end cells, with one alive
    neighbour each, stay alive.  The second step does not restore the
    horizontal blinker either. *)
Theorem life_blinker_is_not_an_oscillator :
  life blinker_h = Some plus_sign ∧ plus_sign ≠ blinker_v ∧
  life plus_sign = Some four_corners ∧ four_corners ≠ blinker_h.
Proof. repeat split; (reflexivity || discriminate). Qed.

(** ** The command line *)

(** [checkArgs] returns [true] exactly on the name of the program and one
    argument that [stoi] reads as a number from 0 to 40. *)
Lemma checkArgs_accepts argVector :
  snd <$> checkArgs argVector = Some (inr true)
  ↔ ∃ name a dim, argVector = [name; a] ∧ stoi a = inr dim ∧ 0 ≤ dim ≤ 40.
Proof.
  unfold checkArgs. destruct argVector as [| name [| a [| a' rest]]].
  - split; [done | by intros (? & ? & ? & [=] & _)].
  - split; [done | by intros (? & ? & ? & [=] & _)].
  - rewrite decide_False by (by intros ?).
    cbn [lookup list_lookup mbind option_bind].
    destruct (stoi a) as [e | dim] eqn:Hstoi.
    + split; [done |].
      intros (? & ? & ? & [= <- <-] & Hdim & _). by rewrite Hstoi in Hdim.
    + destruct (Z.ltb_spec dim 0), (Z.ltb_spec 40 dim); simpl; split;
        try done;
        try (intros (? & ? & dim' & [= <- <-] & Hdim & ?);
             rewrite Hstoi in Hdim; injection Hdim as <-; lia);
        intros _; exists name, a, dim; split_and!; done || lia.
  - rewrite decide_True by (simpl; lia).
    split; [done | by intros (? & ? & ? & [=] & _)].
Qed.

(** The command line without any string: [argVector[0]] is null, and the
    usage line of [checkArgs] is undefined. *)
Lemma checkArgs_no_name : checkArgs [] = None.
Proof. reflexivity. Qed.

(** ** The accesses of [countNbors] *)

(** C9.  On a square board of size N ≥ 1 that the [int] dimension of
    [countNbors] can hold, and for a cell of the board, the two wrapped
    coordinates of every iteration lie in [0, N), the access to the board
    succeeds, and so does [countNbors]. *)
Theorem countNbors_in_bounds (N : nat) (b : Matrix) (x y : nat) :
  square N b → (1 ≤ N)%nat → Z.of_nat N ≤ INT_MAX →
  (x < N)%nat → (y < N)%nat →
  (∀ i j, i ∈ seqZ (-1) 3 → j ∈ seqZ (-1) 3 →
     ∃ x_p y_p,
       wrapped x j (to_int (Z.of_nat (length b))) (length b) = Some x_p ∧
       wrapped y i (to_int (Z.of_nat (length b))) (length b) = Some y_p ∧
       0 ≤ x_p < Z.of_nat N ∧ 0 ≤ y_p < Z.of_nat N ∧
       is_Some (at2_int b y_p x_p)) ∧
  is_Some (countNbors b x y).
Proof.
  intros Hsq HN1 HN Hx Hy. split.
  - intros i j Hi%elem_of_seqZ Hj%elem_of_seqZ.
    rewrite (square_length N b Hsq).
    exists ((Z.of_nat x + j) mod Z.of_nat N), ((Z.of_nat y + i) mod Z.of_nat N).
    pose proof (Z.mod_pos_bound (Z.of_nat x + j) (Z.of_nat N)).
    pose proof (Z.mod_pos_bound (Z.of_nat y + i) (Z.of_nat N)).
    rewrite !wrapped_mod by lia.
    rewrite (at2_int_cell N b Hsq) by lia.
    repeat split; lia || eauto.
  - rewrite (countNbors_nbors9 N b Hsq) by done. eauto.
Qed.

Lemma square_blinker_h : square 5 blinker_h.
Proof. split; [done |]. repeat constructor. Qed.

(** The accesses around the corner cell (0, 4) of the blinker board. *)
Lemma countNbors_in_bounds_witness :
  (∀ i j, i ∈ seqZ (-1) 3 → j ∈ seqZ (-1) 3 →
     ∃ x_p y_p,
       wrapped 0 j (to_int (Z.of_nat (length blinker_h))) (length blinker_h)
       = Some x_p ∧
       wrapped 4 i (to_int (Z.of_nat (length blinker_h))) (length blinker_h)
       = Some y_p ∧
       0 ≤ x_p < 5 ∧ 0 ≤ y_p < 5 ∧
       is_Some (at2_int blinker_h y_p x_p)) ∧
  is_Some (countNbors blinker_h 0 4).
Proof.
  apply (countNbors_in_bounds 5 blinker_h 0 4).
  - split; [reflexivity |]. repeat constructor.
  - lia.
  - vm_compute. discriminate.
  - lia.
  - lia.
Defined.

(** ** Translation on the torus *)

Section Translation.

Context (N : nat) (b : Matrix) (Hsq : square N b).
Context (sx sy : Z).

Lemma torus_torus x c d : (0 < N)%nat → torus N (torus N x c) d = torus N x (c + d).
Proof.
  intros HN. unfold torus.
  pose proof (Z.mod_pos_bound (Z.of_nat x + c) (Z.of_nat N)).
  rewrite Z2Nat.id, Zplus_mod_idemp_l by lia. by rewrite Z.add_assoc.
Qed.

Lemma translate_square : square N (translate sx sy b).
Proof using Hsq.
  unfold translate. rewrite (square_length N b Hsq). apply tabulate_square.
Qed.

Lemma cell_translate y x :
  (y < N)%nat → (x < N)%nat →
  cell (translate sx sy b) y x = cell b (torus N y (- sy)) (torus N x (- sx)).
Proof using Hsq.
  intros Hy Hx. unfold translate. rewrite (square_length N b Hsq).
  by rewrite cell_tabulate.
Qed.

(** The block around a cell of the translated board is the translated block
    around the cell that was moved there. *)
Lemma alive_around_translate offsets y x :
  (y < N)%nat → (x < N)%nat →
  alive_around offsets N (translate sx sy b) x y
  = alive_around offsets N b (torus N x (- sx)) (torus N y (- sy)).
Proof using Hsq.
  intros Hy Hx. unfold alive_around. f_equal.
  apply list_fmap_ext. intros _ [dy dx] _. simpl.
  rewrite cell_translate by (apply torus_lt; lia).
  rewrite !torus_torus by lia.
  by rewrite (Z.add_comm dy), (Z.add_comm dx).
Qed.

Lemma next_cell_translate y x :
  (y < N)%nat → (x < N)%nat →
  next_cell N (translate sx sy b) y x
  = next_cell N b (torus N y (- sy)) (torus N x (- sx)).
Proof using Hsq.
  intros Hy Hx. unfold next_cell, nbors9.
  by rewrite cell_translate, alive_around_translate.
Qed.

End Translation.

Lemma next_board_translate (N : nat) (b : Matrix) (sx sy : Z) :
  square N b →
  next_board N (translate sx sy b) = translate sx sy (next_board N b).
Proof.
  intros Hsq.
  pose proof (tabulate_square N (next_cell N b)) as Hnext.
  apply (square_ext N).
  - apply tabulate_square.
  - by apply translate_square.
  - intros y x Hy Hx. unfold next_board at 1.
    rewrite cell_tabulate, (next_cell_translate N b Hsq) by done.
    rewrite (cell_translate N (next_board N b) Hnext) by done.
    unfold next_board. by rewrite cell_tabulate by (apply torus_lt; lia).
Qed.

(** C6.  On a square board, [life] commutes with every translation of the
    torus: both [life] of the board and [life] of the translated board
    return, and the second result is the translation of the first. *)
Theorem life_translate (N : nat) (b : Matrix) (sx sy : Z) :
  square N b → Z.of_nat N ≤ INT_MAX →
  ∃ b', life b = Some b' ∧
        life (translate sx sy b) = Some (translate sx sy b').
Proof.
  intros Hsq HN. exists (next_board N b). split; [by apply life_spec |].
  rewrite (life_spec N) by (done || by apply translate_square).
  f_equal. by apply next_board_translate.
Qed.

(** The blinker, moved by (2, -3) across the border of the board. *)
Lemma life_translate_witness :
  ∃ b', life blinker_h = Some b' ∧
        life (translate 2 (-3) blinker_h) = Some (translate 2 (-3) b').
Proof.
  apply (life_translate 5 blinker_h 2 (-3)).
  - split; [reflexivity |]. repeat constructor.
  - vm_compute. discriminate.
Defined.

(** ** Determinism *)

(** C7.  On a square board the result of [life] does not depend on the
    order in which the cells are visited: two runs on identical copies of
    the board, each visiting every cell of the board in an order of its
    own, return the same board, which is the one that [life] returns. *)
Theorem life_deterministic (N : nat) (b1 b2 : Matrix) (order1 order2 : list (nat * nat)) :
  square N b1 → Z.of_nat N ≤ INT_MAX → b1 = b2 →
  order1 ≡ₚ cells N → order2 ≡ₚ cells N →
  ∃ b', life b1 = Some b' ∧ life b2 = Some b' ∧
        life_in_order order1 b1 = Some b' ∧
        life_in_order order2 b2 = Some b'.
Proof.
  intros Hsq HN <- Hperm1 Hperm2. exists (next_board N b1).
  assert (Hcover : ∀ order, order ≡ₚ cells N →
            ∀ y x, (y, x) ∈ order ↔ (y < N)%nat ∧ (x < N)%nat).
  { intros order Hperm y x. rewrite Hperm. apply elem_of_cells. }
  repeat split; try by apply life_spec.
  - apply life_in_order_spec; auto.
  - apply life_in_order_spec; auto.
Qed.

(** The blinker, its cells visited in row-major order and in the reverse
    order. *)
Lemma life_deterministic_witness :
  ∃ b', life blinker_h = Some b' ∧ life blinker_h = Some b' ∧
        life_in_order (cells 5) blinker_h = Some b' ∧
        life_in_order (reverse (cells 5)) blinker_h = Some b'.
Proof.
  apply (life_deterministic 5 blinker_h blinker_h (cells 5) (reverse (cells 5))).
  - split; [reflexivity |]. repeat constructor.
  - vm_compute. discriminate.
  - reflexivity.
  - reflexivity.
  - apply reverse_Permutation.
Defined.

(** ** The shape of the board *)

Lemma for_each_invariant {I S : Type} (P : S → Prop) (body : I → S → option S)
    (range : list I) (s : S) :
  P s →
  (∀ i s, i ∈ range → P s → ∃ s', body i s = Some s' ∧ P s') →
  ∃ s', for_each body range s = Some s' ∧ P s'.
Proof.
  revert s. induction range as [| i range IH]; intros s Hs Hbody.
  - by exists s.
  - destruct (Hbody i s) as (s1 & Hs1 & HP1); [by left | done |].
    destruct (IH s1) as (s2 & Hs2 & HP2); [done | |].
    { intros i' s' Hin. apply Hbody. by right. }
    exists s2. simpl. rewrite Hs1. by simpl.
Qed.

Lemma elem_of_take_cells N k y x :
  (y, x) ∈ take k (cells N) → (y < N)%nat ∧ (x < N)%nat.
Proof. intros Hin. by apply elem_of_cells, (subseteq_take k). Qed.

Section Random_board.

Context {RandState : Type}.
Variable rand : RandState → Z * RandState.

Lemma randBoard_cells (s : RandState * Matrix) :
  randBoard rand s
  = for_each (fun c => randBoard_body rand c.1 c.2) (cells (length s.2)) s.
Proof.
  unfold randBoard, cells. rewrite bind_pairs.
  apply (for_each_nested (randBoard_body rand)).
Qed.

Lemma randBoard_body_square N y x (s : RandState * Matrix) :
  square N s.2 → (y < N)%nat → (x < N)%nat →
  ∃ s', randBoard_body rand y x s = Some s' ∧ square N s'.2.
Proof.
  intros Hsq Hy Hx. unfold randBoard_body.
  destruct (rand s.1) as [r g]. rewrite int_rem_pos by lia. simpl.
  destruct (assign2_spec N s.2 y x (negb (Z.rem r 2 =? 0)) Hsq Hy Hx)
    as (board & -> & Hsq' & _).
  by eexists.
Qed.

Lemma randBoard_prefix_square N (order : list (nat * nat)) (s : RandState * Matrix) :
  square N s.2 →
  (∀ y x, (y, x) ∈ order → (y < N)%nat ∧ (x < N)%nat) →
  ∃ s', for_each (fun c => randBoard_body rand c.1 c.2) order s = Some s'
        ∧ square N s'.2.
Proof.
  intros Hsq Horder.
  apply (for_each_invariant (fun s => square N s.2)); [done |].
  intros [y x] s' Hin Hsq'. destruct (Horder y x Hin).
  by apply randBoard_body_square.
Qed.

End Random_board.

(** C10.  [life] and [randBoard] return on a square board of size N, and
    the board that they return is square of size N.  The same holds after
    any number of iterations of their loops: the board under construction
    is square of size N all along. *)
Theorem shape_preserved {RandState : Type} (rand : RandState → Z * RandState)
    (g : RandState) (N : nat) (b : Matrix) :
  square N b → Z.of_nat N ≤ INT_MAX →
  (∃ b', life b = Some b' ∧ square N b') ∧
  (∃ g' b', randBoard rand (g, b) = Some (g', b') ∧ square N b') ∧
  (∀ k, ∃ newBoard,
     life_in_order (take k (cells N)) b = Some newBoard ∧ square N newBoard) ∧
  (∀ k, ∃ s,
     for_each (fun c => randBoard_body rand c.1 c.2) (take k (cells N)) (g, b)
     = Some s ∧ square N s.2).
Proof.
  intros Hsq HN. repeat split.
  - exists (next_board N b). split; [by apply life_spec | apply tabulate_square].
  - rewrite randBoard_cells. simpl. rewrite (square_length N b Hsq).
    destruct (randBoard_prefix_square rand N (cells N) (g, b))
      as ([g' b'] & Hs & Hsq'); [done | apply elem_of_cells |].
    by exists g', b'.
  - intros k. unfold life_in_order.
    destruct (life_in_order_step N b Hsq HN (take k (cells N)) [] b)
      as (nb & Hnb & Hsq' & _).
    { apply elem_of_take_cells. }
    { split; [done |]. intros y x.
      rewrite decide_False; [done | apply not_elem_of_nil]. }
    by exists nb.
  - intros k. apply randBoard_prefix_square; [done | apply elem_of_take_cells].
Qed.

(** The blinker and a counter as generator. *)
Lemma shape_preserved_witness :
  (∃ b', life blinker_h = Some b' ∧ square 5 b') ∧
  (∃ g' b', randBoard (fun g => (g, g + 1)) (7, blinker_h) = Some (g', b')
            ∧ square 5 b') ∧
  (∀ k, ∃ newBoard,
     life_in_order (take k (cells 5)) blinker_h = Some newBoard
     ∧ square 5 newBoard) ∧
  (∀ k, ∃ s,
     for_each (fun c => randBoard_body (fun g => (g, g + 1)) c.1 c.2)
              (take k (cells 5)) (7, blinker_h)
     = Some s ∧ square 5 s.2).
Proof.
  apply (shape_preserved (fun g => (g, g + 1)) 7 5 blinker_h).
  - split; [reflexivity |]. repeat constructor.
  - vm_compute. discriminate.
Defined.

(** ** [print] *)

Section Print.

Context (N : nat) (b : Matrix) (Hsq : square N b).

Lemma print_cell_spec y x scr :
  (y < N)%nat → (x < N)%nat →
  print_cell b y x scr = Some (scr ++ cell_calls (cell b y x)).
Proof using Hsq.
  intros Hy Hx. unfold print_cell. by rewrite (at2_cell N b Hsq).
Qed.

Lemma print_cells_spec y k scr :
  (y < N)%nat → (k ≤ N)%nat →
  for_each (print_cell b y) (seq 0 k) scr
  = Some (scr ++ (x ← seq 0 k; cell_calls (cell b y x))).
Proof using Hsq.
  intros Hy. induction k as [| k IH]; intros Hk.
  - simpl. by rewrite app_nil_r.
  - rewrite seq_S, for_each_app, IH by lia. simpl.
    rewrite print_cell_spec by lia. simpl.
    by rewrite bind_app, bind_singleton, app_assoc.
Qed.

Lemma print_row_spec y scr :
  (y < N)%nat → print_row b y scr = Some (scr ++ row_calls b y).
Proof using Hsq.
  intros Hy. unfold print_row, row_calls.
  rewrite (square_length N b Hsq), print_cells_spec by done. simpl.
  by rewrite app_assoc.
Qed.

Lemma print_rows_spec k scr :
  (k ≤ N)%nat →
  for_each (print_row b) (seq 0 k) scr = Some (scr ++ rows_above b k).
Proof using Hsq.
  unfold rows_above. induction k as [| k IH]; intros Hk.
  - simpl. by rewrite app_nil_r.
  - rewrite seq_S, for_each_app, IH by lia. simpl.
    rewrite print_row_spec by lia.
    by rewrite bind_app, bind_singleton, app_assoc.
Qed.

Lemma print_spec scr : print b scr = Some (scr ++ frame b).
Proof using Hsq.
  unfold print, frame.
  rewrite (square_length N b Hsq), print_rows_spec by done. simpl.
  by rewrite app_assoc.
Qed.

Lemma rows_above_S y : rows_above b (S y) = rows_above b y ++ row_calls b y.
Proof. unfold rows_above. by rewrite seq_S, bind_app, bind_singleton. Qed.

End Print.

(** ** The two threads of an iteration *)

Lemma steps_trans c1 c2 c3 : steps c1 c2 → steps c2 c3 → steps c1 c3.
Proof.
  induction 1 as [c | t1 t2 w t1' w' c Hstep _ IH | t1 t2 w t2' w' c Hstep _ IH];
    intros H23; [done | |].
  - eapply steps_left; eauto.
  - eapply steps_right; eauto.
Qed.

Lemma run_thread_finished fuel w : run_thread fuel finished w = Some w.
Proof. by destruct fuel. Qed.

Lemma run_thread_step fuel t w :
  t ≠ finished →
  run_thread fuel t w
  = match fuel with
    | O => None
    | S fuel => '(t', w') ← thread_step t w; run_thread fuel t' w'
    end.
Proof. by destruct t, fuel. Qed.

Lemma finished_or_not (t : thread) : t = finished ∨ t ≠ finished.
Proof. destruct t; auto. Qed.

Lemma run_thread_steps_left fuel : ∀ t1 t2 w w',
  run_thread fuel t1 w = Some w' → steps (t1, t2, w) (finished, t2, w').
Proof.
  induction fuel as [| fuel IH]; intros t1 t2 w w' Hrun;
    destruct (finished_or_not t1) as [-> | Hne];
    rewrite ?run_thread_finished, ?run_thread_step in Hrun by done;
    try done; try (injection Hrun as ->; apply steps_refl).
  destruct (thread_step t1 w) as [[t' w1] |] eqn:Hstep; [| done].
  eapply steps_left; [exact Hstep | by apply IH].
Qed.

Lemma run_thread_steps_right fuel : ∀ t1 t2 w w',
  run_thread fuel t2 w = Some w' → steps (t1, t2, w) (t1, finished, w').
Proof.
  induction fuel as [| fuel IH]; intros t1 t2 w w' Hrun;
    destruct (finished_or_not t2) as [-> | Hne];
    rewrite ?run_thread_finished, ?run_thread_step in Hrun by done;
    try done; try (injection Hrun as ->; apply steps_refl).
  destruct (thread_step t2 w) as [[t' w1] |] eqn:Hstep; [| done].
  eapply steps_right; [exact Hstep | by apply IH].
Qed.

Section Threads.

Context (N : nat) (B1 : Matrix) (Hsq : square N B1).
Context (HN : Z.of_nat N ≤ INT_MAX).
Context (arg : loc) (Harg : arg ≠ board_loc).
Context (σ : gmap loc (list (list bool))).
Context (Hcopy : σ !! arg = Some B1) (Hboard : σ !! board_loc = Some B1).
Context (scr : list curses_call).

Local Abbreviation B2 := (next_board N B1).
Local Abbreviation reached_here := (reached arg B1 B2 σ scr).

Lemma reached_copy t1 t2 w : reached_here (t1, t2, w) → store w !! arg = Some B1.
Proof using Hcopy Harg.
  intros [_ [[_ ->] | [[_ ->] | [_ ->]]]]; try done.
  by rewrite lookup_insert_ne.
Qed.

Lemma reached_left t1 t2 w t1' w' :
  reached_here (t1, t2, w) → thread_step t1 w = Some (t1', w') →
  reached_here (t1', t2, w').
Proof using Hsq Hcopy Harg.
  intros Hreach Hstep. pose proof (reached_copy _ _ _ Hreach) as Hlook.
  destruct Hreach as [[(y & -> & Hy & Hscr) | [-> _]] Hlife]; [| done].
  simpl in Hstep. rewrite Hlook in Hstep. simpl in Hstep.
  rewrite (square_length N B1 Hsq) in Hstep, Hy.
  destruct (decide (y < N)%nat) as [Hlt | Hge].
  - rewrite (print_row_spec N B1 Hsq) in Hstep by done.
    injection Hstep as <- <-. split; [| done]. left. exists (S y).
    rewrite (square_length N B1 Hsq), rows_above_S, Hscr, app_assoc.
    repeat split; lia || done.
  - injection Hstep as <- <-. split; [| done]. right. split; [done |].
    unfold frame. rewrite (square_length N B1 Hsq). simpl.
    replace N with y by lia. by rewrite Hscr, app_assoc.
Qed.

Lemma reached_right t1 t2 w t2' w' :
  reached_here (t1, t2, w) → thread_step t2 w = Some (t2', w') →
  reached_here (t1, t2', w').
Proof using Hsq HN Hboard.
  intros [Hprint [[-> Hσ] | [[-> Hσ] | [-> _]]]] Hstep; [| | done].
  - simpl in Hstep. rewrite Hσ, Hboard in Hstep. simpl in Hstep.
    rewrite (life_spec N B1 Hsq HN) in Hstep. simpl in Hstep.
    injection Hstep as <- <-. split; [done |]. right. left. done.
  - simpl in Hstep. injection Hstep as <- <-. split; [done |].
    right. right. by rewrite Hσ.
Qed.

(** Every interleaving that ends both threads ends in the same world. *)
Lemma reached_end c w' :
  steps c (finished, finished, w') → reached_here c →
  w' = World (<[board_loc := B2]> σ) (scr ++ frame B1).
Proof using Hsq HN Hcopy Hboard Harg.
  intros Hsteps. remember (finished, finished, w') as c' eqn:Hc'.
  induction Hsteps as [c | t1 t2 w t1' w1 c Hstep _ IH | t1 t2 w t2' w1 c Hstep _ IH];
    intros Hreach.
  - subst c. destruct Hreach as [[(y & ? & _) | [_ Hscr]] [[? _] | [[? _] | [_ Hσ]]]];
      try done.
    destruct w' as [σ' scr']. simpl in *. by subst.
  - apply IH; [done |]. by apply (reached_left t1 t2 w).
  - apply IH; [done |]. by apply (reached_right t1 t2 w).
Qed.

Lemma run_print k : ∀ y w,
  (y + k = N)%nat → store w !! arg = Some B1 →
  run_thread (S k) (print_rows arg y) w
  = Some (World (store w)
                (screen w ++ (y' ← seq y k; row_calls B1 y') ++ print_end)).
Proof using Hsq Harg.
  induction k as [| k IH]; intros y w Hy Hlook.
  - simpl. rewrite Hlook. simpl. rewrite (square_length N B1 Hsq).
    rewrite decide_False by lia. done.
  - rewrite run_thread_step by done. cbn [thread_step].
    rewrite Hlook. cbn [mbind option_bind].
    rewrite (square_length N B1 Hsq), decide_True by lia.
    rewrite (print_row_spec N B1 Hsq) by lia. cbn [mbind option_bind].
    rewrite IH by (done || lia). cbn [store screen seq]. f_equal. f_equal.
    by rewrite bind_cons, <- !app_assoc.
Qed.

Lemma run_life w :
  store w !! board_loc = Some B1 →
  run_thread 2 (life_loops board_loc) w
  = Some (World (<[board_loc := B2]> (store w)) (screen w)).
Proof using Hsq HN.
  intros Hlook. simpl. rewrite Hlook. simpl.
  by rewrite (life_spec N B1 Hsq HN).
Qed.

End Threads.

(** ** One iteration of the loop of [main] *)

Section Iteration.

Context (N : nat) (B : Matrix) (Hsq : square N B).
Context (HN : Z.of_nat N ≤ INT_MAX).
Context (σ : gmap loc (list (list bool))) (Hσ : σ !! board_loc = Some B).
Context (scr : list curses_call).

Local Abbreviation B1 := (next_board N B).
Local Abbreviation B2 := (next_board N (next_board N B)).
Local Abbreviation σ1 := (<[board_loc := next_board N B]> σ).
Local Abbreviation arg := (fresh (dom (<[board_loc := next_board N B]> σ))).
Local Abbreviation w2 :=
  (World (<[fresh (dom (<[board_loc := next_board N B]> σ)) := next_board N B]>
            (<[board_loc := next_board N B]> σ))
         (scr ++ [move 0 0])).

Lemma square_B1 : square N B1.
Proof. apply tabulate_square. Qed.

Lemma arg_fresh : σ1 !! arg = None.
Proof. apply not_elem_of_dom, is_fresh. Qed.

Lemma arg_not_board : arg ≠ board_loc.
Proof.
  intros Heq. pose proof arg_fresh as Hfresh.
  rewrite Heq, lookup_insert_eq in Hfresh. done.
Qed.

Lemma life_then_spawn :
  (w1 ← life_at board_loc (World σ (scr ++ [move 0 0])); spawn w1)
  = Some (print_rows arg 0, life_loops board_loc, w2).
Proof using Hsq HN Hσ.
  unfold life_at. simpl. rewrite Hσ. simpl.
  rewrite (life_spec N B Hsq HN). simpl.
  unfold spawn. simpl. by rewrite lookup_insert_eq.
Qed.

Lemma w2_board : store w2 !! board_loc = Some B1.
Proof.
  simpl. rewrite lookup_insert_ne by apply arg_not_board.
  by rewrite lookup_insert_eq.
Qed.

Lemma w2_copy : store w2 !! arg = Some B1.
Proof. simpl. by rewrite lookup_insert_eq. Qed.

Lemma interleavings_end w' :
  steps (print_rows arg 0, life_loops board_loc, w2) (finished, finished, w') →
  w' = World (<[board_loc := B2]> (store w2)) (scr ++ [move 0 0] ++ frame B1).
Proof using HN.
  intros Hsteps. rewrite app_assoc.
  apply (reached_end N B1 square_B1 HN arg arg_not_board (store w2)
           w2_copy w2_board (scr ++ [move 0 0]) _ _ Hsteps).
  split.
  - left. exists 0%nat. simpl. rewrite app_nil_r. repeat split; lia || done.
  - by left.
Qed.

Lemma threads_in_join_order :
  (w ← run_thread (N + 1) (print_rows arg 0) w2;
   run_thread 2 (life_loops board_loc) w)
  = Some (World (<[board_loc := B2]> (store w2))
                (scr ++ [move 0 0] ++ frame B1)).
Proof using HN.
  rewrite Nat.add_1_r.
  rewrite (run_print N B1 square_B1 arg arg_not_board N 0 w2)
    by (done || apply w2_copy).
  cbn [mbind option_bind].
  rewrite (run_life N B1 square_B1 HN) by apply w2_board.
  cbn [store screen]. unfold frame, rows_above.
  rewrite (square_length N B1 square_B1). by rewrite <- !app_assoc.
Qed.

Lemma loop_body_spec :
  loop_body (World σ scr)
  = Some (World (<[board_loc := B2]> σ) (scr ++ [move 0 0] ++ frame B1)).
Proof using Hsq HN Hσ.
  unfold loop_body. cbn [store screen].
  pose proof life_then_spawn as Hspawn.
  destruct (life_at board_loc (World σ (scr ++ [move 0 0]))) as [w1 |];
    [| done].
  cbn [mbind option_bind] in *. rewrite Hspawn. cbn [mbind option_bind].
  rewrite w2_board. cbn [mbind option_bind].
  rewrite (square_length N B1 square_B1).
  pose proof threads_in_join_order as Hrun.
  destruct (run_thread (N + 1) (print_rows arg 0) w2) as [w3 |]; [| done].
  cbn [mbind option_bind] in *. rewrite Hrun.
  cbn [mbind option_bind store screen thread_board from_option]. f_equal. f_equal.
  rewrite delete_insert_ne by apply arg_not_board.
  rewrite delete_insert_id by apply arg_fresh.
  apply insert_insert_eq.
Qed.

End Iteration.

(** C4.  One iteration of the loop on a square board [B] applies [life]
    twice.  The first application is the call in [main]; the copy that the
    print thread receives is its result [B1].  The second is the life
    thread.  However the two threads interleave, when both have ended the
    board of [main] holds [life] of [B1] and the terminal has received what
    [print] draws for [B1]; there is such an interleaving, and [loop_body]
    computes this result. *)
Theorem loop_body_two_generations (N : nat) (B : Matrix)
    (σ : gmap loc (list (list bool))) (scr : list curses_call) :
  square N B → Z.of_nat N ≤ INT_MAX → σ !! board_loc = Some B →
  ∃ B1 B2 arg w2 drawn,
    life B = Some B1 ∧ life B1 = Some B2 ∧
    (w1 ← life_at board_loc (World σ (scr ++ [move 0 0])); spawn w1)
    = Some (print_rows arg 0, life_loops board_loc, w2) ∧
    store w2 !! arg = Some B1 ∧
    print B1 (scr ++ [move 0 0]) = Some drawn ∧
    (∀ w', steps (print_rows arg 0, life_loops board_loc, w2)
                 (finished, finished, w') →
           store w' !! board_loc = Some B2 ∧ screen w' = drawn) ∧
    (∃ w', steps (print_rows arg 0, life_loops board_loc, w2)
                 (finished, finished, w')) ∧
    loop_body (World σ scr) = Some (World (<[board_loc := B2]> σ) drawn).
Proof.
  intros Hsq HN Hσ.
  pose proof (square_B1 N B) as Hsq1.
  eexists (next_board N B), (next_board N (next_board N B)), _, _, _.
  split; [by apply life_spec |].
  split; [by apply life_spec |].
  split; [apply (life_then_spawn N B Hsq HN σ Hσ scr) |].
  split; [apply w2_copy |].
  split; [apply (print_spec N _ Hsq1) |].
  split; [| split].
  - intros w' Hsteps. rewrite (interleavings_end N B HN σ scr w' Hsteps).
    simpl. rewrite lookup_insert_eq. by rewrite <- app_assoc.
  - pose proof (threads_in_join_order N B HN σ scr) as Hrun.
    destruct (run_thread (N + 1) _ _) as [w3 |] eqn:Hprint; [| done].
    cbn [mbind option_bind] in Hrun. eexists.
    eapply steps_trans.
    + apply (run_thread_steps_left _ _ _ _ _ Hprint).
    + apply (run_thread_steps_right _ _ _ _ _ Hrun).
  - rewrite (loop_body_spec N B Hsq HN σ Hσ scr). by rewrite <- app_assoc.
Qed.

(** One iteration on the blinker, from an empty terminal. *)
Lemma loop_body_two_generations_witness :
  ∃ B1 B2 arg w2 drawn,
    life blinker_h = Some B1 ∧ life B1 = Some B2 ∧
    (w1 ← life_at board_loc (World {[board_loc := blinker_h]} [move 0 0]);
     spawn w1)
    = Some (print_rows arg 0, life_loops board_loc, w2) ∧
    store w2 !! arg = Some B1 ∧
    print B1 [move 0 0] = Some drawn ∧
    (∀ w', steps (print_rows arg 0, life_loops board_loc, w2)
                 (finished, finished, w') →
           store w' !! board_loc = Some B2 ∧ screen w' = drawn) ∧
    (∃ w', steps (print_rows arg 0, life_loops board_loc, w2)
                 (finished, finished, w')) ∧
    loop_body (World {[board_loc := blinker_h]} [])
    = Some (World (<[board_loc := B2]> {[board_loc := blinker_h]}) drawn).
Proof.
  apply (loop_body_two_generations 5 blinker_h {[board_loc := blinker_h]} []).
  - split; [reflexivity |]. repeat constructor.
  - vm_compute. discriminate.
  - reflexivity.
Defined.

(** ** The boards of the two threads *)

(** The life thread works on the board of [main] itself: the two threads
    do not both have a board of their own. *)
Lemma life_thread_shares_the_board :
  ¬ independent_copies (World {[board_loc := blinker_h]} []).
Proof.
  intros Hown.
  destruct (Hown _ _ _ eq_refl (life_loops board_loc)) as (l & Hl & Hne).
  - right. left.
  - simpl in Hl. by injection Hl as <-.
Qed.

(** C8, amended.  [spawn] gives the print thread a new board object, which
    holds a copy of the board of [main], and gives the life thread the
    board of [main] itself.  The print thread never changes the store and
    its steps depend on no other board than its copy; the life thread
    leaves the terminal and the copy alone.  The two threads share no
    board. *)
Theorem spawn_copies_the_board_for_print_only (w : world) (board : Matrix) :
  store w !! board_loc = Some board →
  ∃ arg w',
    spawn w = Some (print_rows arg 0, life_loops board_loc, w') ∧
    (arg ∉ dom (store w)) ∧ arg ≠ board_loc ∧
    store w' !! arg = Some board ∧
    store w' !! board_loc = Some board ∧
    (∀ y w1 t w2,
       thread_step (print_rows arg y) w1 = Some (t, w2) →
       store w2 = store w1 ∧ (thread_board t = Some arg ∨ t = finished)) ∧
    (∀ y σ σ' scr,
       σ !! arg = σ' !! arg →
       prod_map id screen <$> thread_step (print_rows arg y) (World σ scr)
       = prod_map id screen <$> thread_step (print_rows arg y) (World σ' scr)) ∧
    (∀ t2 w1 t w2,
       t2 = life_loops board_loc ∨ (∃ newBoard, t2 = life_assign board_loc newBoard) →
       thread_step t2 w1 = Some (t, w2) →
       screen w2 = screen w1 ∧ store w2 !! arg = store w1 !! arg ∧
       (thread_board t = Some board_loc ∨ t = finished)).
Proof.
  intros Hboard.
  assert (Hfresh : fresh (dom (store w)) ∉ dom (store w)) by apply is_fresh.
  assert (Hne : fresh (dom (store w)) ≠ board_loc).
  { intros Heq. rewrite Heq in Hfresh. apply Hfresh, elem_of_dom. eauto. }
  exists (fresh (dom (store w))), (World (<[fresh (dom (store w)) := board]> (store w)) (screen w)).
  split; [unfold spawn; by rewrite Hboard |].
  split; [done |]. split; [done |].
  split; [simpl; by rewrite lookup_insert_eq |].
  split; [simpl; by rewrite lookup_insert_ne |].
  split; [| split].
  - intros y w1 t w2 Hstep. simpl in Hstep.
    destruct (store w1 !! fresh (dom (store w))) as [b |]; [| done]. simpl in Hstep.
    destruct (decide (y < length b)%nat).
    + destruct (print_row b y (screen w1)); [| done]. simpl in Hstep.
      injection Hstep as <- <-. auto.
    + injection Hstep as <- <-. auto.
  - intros y σ σ' scr Heq. simpl. rewrite Heq.
    destruct (σ' !! fresh (dom (store w))) as [b |]; [| done]. simpl.
    destruct (decide (y < length b)%nat); [| done].
    by destruct (print_row b y scr).
  - intros t2 w1 t w2 [-> | [newBoard ->]] Hstep; simpl in Hstep.
    + destruct (store w1 !! board_loc) as [b |]; [| done]. simpl in Hstep.
      destruct (life b); [| done]. simpl in Hstep.
      injection Hstep as <- <-. auto.
    + injection Hstep as <- <-. simpl.
      rewrite lookup_insert_ne by done. auto.
Qed.

(** The threads of an iteration on the blinker. *)
Lemma spawn_copies_the_board_for_print_only_witness :
  ∃ arg w',
    spawn (World {[board_loc := blinker_h]} [])
    = Some (print_rows arg 0, life_loops board_loc, w') ∧
    (arg ∉ dom (store (World {[board_loc := blinker_h]} []))) ∧
    arg ≠ board_loc ∧
    store w' !! arg = Some blinker_h ∧
    store w' !! board_loc = Some blinker_h ∧
    (∀ y w1 t w2,
       thread_step (print_rows arg y) w1 = Some (t, w2) →
       store w2 = store w1 ∧ (thread_board t = Some arg ∨ t = finished)) ∧
    (∀ y σ σ' scr,
       σ !! arg = σ' !! arg →
       prod_map id screen <$> thread_step (print_rows arg y) (World σ scr)
       = prod_map id screen <$> thread_step (print_rows arg y) (World σ' scr)) ∧
    (∀ t2 w1 t w2,
       t2 = life_loops board_loc ∨ (∃ newBoard, t2 = life_assign board_loc newBoard) →
       thread_step t2 w1 = Some (t, w2) →
       screen w2 = screen w1 ∧ store w2 !! arg = store w1 !! arg ∧
       (thread_board t = Some board_loc ∨ t = finished)).
Proof.
  apply (spawn_copies_the_board_for_print_only
           (World {[board_loc := blinker_h]} []) blinker_h).
  reflexivity.
Defined.

(** ** [main] *)

Lemma replicate_square N : square N (replicate N (replicate N false)).
Proof.
  split; [by rewrite length_replicate |].
  apply Forall_replicate. by rewrite length_replicate.
Qed.

(** On a square board the loop runs without undefined behaviour until the
    quit key. *)
Lemma main_loop_quits (N : nat) (keys : list Z) : ∀ (B : Matrix) scr,
  square N B → Z.of_nat N ≤ INT_MAX → 113 ∈ keys →
  ∃ w, main_loop keys (World {[board_loc := B]} scr) = quit w.
Proof.
  induction keys as [| key keys IH]; intros B scr Hsq HN Hin.
  - by apply elem_of_nil in Hin.
  - simpl. destruct (Z.eqb_spec key 113) as [-> | Hne]; [by eexists |].
    rewrite (loop_body_spec N B Hsq HN) by apply lookup_singleton_eq.
    rewrite insert_singleton_eq. apply IH; [apply tabulate_square | done |].
    apply elem_of_cons in Hin as [Heq | Hin]; [by subst | done].
Qed.

Section Command_line.

Context {RandState : Type}.
Variable srand : Z → RandState.
Variable rand : RandState → Z * RandState.

(** The dimension 0 passes the test [dim < 0 || dim > 40] of [checkArgs],
    whose message gives the range as (0, 40]: [main] then runs on a board
    without cells and exits with success at the quit key. *)
Lemma dimension_zero_accepted now :
  checkArgs ["life"; "0"] = Some ([], inr true) ∧
  main srand rand ["life"; "0"] now [113]
  = ([], initialize ++ [endwin], exited EXIT_SUCCESS).
Proof. split; reflexivity. Qed.

(** C3, amended.  On a command line that holds the name of the program but
    not exactly one argument, [checkArgs] prints the usage line and [main]
    exits with failure.  With one argument that [stoi] reads as a number
    below 0 or above 40, [checkArgs] prints the range message and [main]
    exits with failure.  With one that [stoi] reads as a number from 1 to
    40, [checkArgs] prints nothing and returns [true], and [main] exits
    with success once [getch] returns the quit key.  With one from which
    [stoi] throws, the exception leaves [checkArgs] and [main], and nothing
    is printed.  Nothing is said of the command line without any string,
    where the usage line is undefined. *)
Theorem checkArgs_validation (argVector : list string) (now : Z) (keys : list Z) :
  (∀ name, argVector !! 0%nat = Some name → length argVector ≠ 2%nat →
     checkArgs argVector
     = Some (["Usage: "; name; " <board dimension>"; newline], inr false)
     ∧ (main srand rand argVector now keys).2 = exited EXIT_FAILURE
     ∧ (main srand rand argVector now keys).1.1 ≠ []) ∧
  (∀ name a dim, argVector = [name; a] → stoi a = inr dim →
       (dim < 0 ∨ 40 < dim →
          checkArgs argVector
          = Some (["Board dimensions should be (0, 40]"; newline], inr false)
          ∧ (main srand rand argVector now keys).2 = exited EXIT_FAILURE
          ∧ (main srand rand argVector now keys).1.1 ≠ []) ∧
       (0 < dim ≤ 40 →
          checkArgs argVector = Some ([], inr true)
          ∧ (113 ∈ keys →
             (main srand rand argVector now keys).2 = exited EXIT_SUCCESS))) ∧
  (∀ name a e, argVector = [name; a] → stoi a = inl e →
       checkArgs argVector = Some ([], inl e)
       ∧ main srand rand argVector now keys = ([], [], terminated e)).
Proof.
  unfold main, checkArgs. split; [| split].
  - intros name Hname Hlen. rewrite decide_True by done. by rewrite Hname.
  - intros name a dim -> Hdim. rewrite decide_False by (by intros ?).
    cbn [lookup list_lookup mbind option_bind fmap option_fmap option_map].
    rewrite Hdim. split.
    + intros Hout.
      destruct (Z.ltb_spec dim 0), (Z.ltb_spec 40 dim); simpl; done || lia.
    + intros Hin.
      destruct (Z.ltb_spec dim 0), (Z.ltb_spec 40 dim); try lia. simpl.
      split; [done |]. intros Hquit.
      rewrite to_size_t_small by (unfold SIZE_MODULUS; lia).
      pose proof (replicate_square (Z.to_nat dim)) as Hsq.
      destruct (randBoard_prefix_square rand (Z.to_nat dim)
                  (cells (Z.to_nat dim))
                  (srand now, replicate (Z.to_nat dim) (replicate (Z.to_nat dim) false)))
        as ([g board] & Hrand & Hsq'); [done | apply elem_of_cells |].
      rewrite randBoard_cells. cbn [snd].
      rewrite (square_length _ _ Hsq), Hrand.
      destruct (main_loop_quits (Z.to_nat dim) keys board initialize)
        as [w ->]; try done.
      unfold INT_MAX. lia.
  - intros name a e -> He. rewrite decide_False by (by intros ?).
    cbn [lookup list_lookup mbind option_bind fmap option_fmap option_map].
    by rewrite He.
Qed.

End Command_line.

(** The argument [abc]: [stoi] throws [std::invalid_argument] inside
    [checkArgs]; nothing is written to [cout] and [main] does not return. *)
Lemma abc_is_no_usage_error :
  checkArgs ["life"; "abc"] = Some ([], inl invalid_argument) ∧
  main (fun seed => seed) (fun g => (g, g + 1)) ["life"; "abc"] 0 [113]
  = ([], [], terminated invalid_argument).
Proof. split; reflexivity. Qed.

(** The dimension 40, with the quit key at the second call of [getch]. *)
Lemma checkArgs_validation_witness :
  checkArgs ["life"; "40"] = Some ([], inr true) ∧
  (main (fun seed => seed) (fun g => (g, g + 1)) ["life"; "40"] 0 [-1; 113]).2
  = exited EXIT_SUCCESS.
Proof.
  destruct (checkArgs_validation (fun seed => seed) (fun g => (g, g + 1))
              ["life"; "40"] 0 [-1; 113]) as (_ & Hvalid & _).
  destruct (Hvalid "life" "40" 40 eq_refl eq_refl) as [_ Haccepted].
  destruct Haccepted as [Hcheck Hmain]; [lia |].
  split; [exact Hcheck |]. apply Hmain. right. left.
Defined.

(** * Part IV: further properties of the program *)

(** ** The rules as [life] applies them *)

(** X1.  A dead cell of a square board is alive after [life] exactly when 3 of
    its 8 neighbours are alive. *)
Theorem life_birth (N : nat) (b : Matrix) (y x : nat) :
  square N b → Z.of_nat N ≤ INT_MAX → (y < N)%nat → (x < N)%nat →
  cell b y x = false →
  ∃ b', life b = Some b' ∧ (cell b' y x = true ↔ nbors8 N b x y = 3%nat).
Proof.
  intros Hsq HN Hy Hx Hdead.
  destruct (life_cell N b Hsq HN y x Hy Hx) as (b' & Hlife & Hcell).
  exists b'. split; [done |]. rewrite Hcell, Hdead. apply Nat.eqb_eq.
Qed.

(** A dead cell of the blinker board with three alive neighbours. *)
Lemma life_birth_witness :
  ∃ b', life blinker_h = Some b'
        ∧ (cell b' 1 2 = true ↔ nbors8 5 blinker_h 2 1 = 3%nat).
Proof.
  apply (life_birth 5 blinker_h 1 2).
  - split; [reflexivity |]. repeat constructor.
  - vm_compute. discriminate.
  - lia.
  - lia.
  - reflexivity.
Defined.

(** X2.  An alive cell of a square board is alive after [life] exactly when 1 or
    2 of its 8 neighbours are alive: [countNbors] counts the cell itself,
    and [life] keeps the cell for the counts 2 and 3.  In particular an
    alive cell without alive neighbours dies, and so does one with 3 or
    more. *)
Theorem life_survival (N : nat) (b : Matrix) (y x : nat) :
  square N b → Z.of_nat N ≤ INT_MAX → (y < N)%nat → (x < N)%nat →
  cell b y x = true →
  ∃ b', life b = Some b'
        ∧ (cell b' y x = true
           ↔ nbors8 N b x y = 1%nat ∨ nbors8 N b x y = 2%nat).
Proof.
  intros Hsq HN Hy Hx Halive.
  destruct (life_cell N b Hsq HN y x Hy Hx) as (b' & Hlife & Hcell).
  exists b'. split; [done |]. rewrite Hcell, Halive.
  rewrite orb_true_iff, !Nat.eqb_eq. done.
Qed.

(** The middle cell of the blinker. *)
Lemma life_survival_witness :
  ∃ b', life blinker_h = Some b'
        ∧ (cell b' 2 2 = true
           ↔ nbors8 5 blinker_h 2 2 = 1%nat ∨ nbors8 5 blinker_h 2 2 = 2%nat).
Proof.
  apply (life_survival 5 blinker_h 2 2).
  - split; [reflexivity |]. repeat constructor.
  - vm_compute. discriminate.
  - lia.
  - lia.
  - reflexivity.
Defined.

(** ** Uniform boards *)

Lemma uniform_square N v : square N (uniform N v).
Proof.
  unfold uniform. split; [by rewrite length_replicate |].
  apply Forall_replicate. by rewrite length_replicate.
Qed.

Lemma cell_uniform N v y x :
  (y < N)%nat → (x < N)%nat → cell (uniform N v) y x = v.
Proof.
  intros Hy Hx. unfold cell, at2, uniform.
  rewrite lookup_replicate_2 by done. simpl.
  by rewrite lookup_replicate_2.
Qed.

Lemma nbors9_uniform N v y x :
  (0 < N)%nat → nbors9 N (uniform N v) x y = (9 * Nat.b2n v)%nat.
Proof.
  intros HN. unfold nbors9, alive_around.
  change offsets9 with
    [(-1, -1); (-1, 0); (-1, 1); (0, -1); (0, 0); (0, 1); (1, -1); (1, 0); (1, 1)].
  cbn [fmap list_fmap sum_list sum_list_with fst snd id].
  rewrite !cell_uniform by (apply torus_lt; lia). lia.
Qed.

(** X3.  Whatever the size of the board, [life] of the board without alive cells
    is that board, and [life] of the board without dead cells is the board
    without alive cells: every cell then has the count 9, also for the
    sizes 1 and 2, where the 9 positions of the count overlap. *)
Theorem life_uniform (N : nat) (v : bool) :
  Z.of_nat N ≤ INT_MAX → life (uniform N v) = Some (uniform N false).
Proof.
  intros HN. rewrite (life_spec N) by (done || apply uniform_square).
  f_equal. apply (square_ext N);
    [apply tabulate_square | apply uniform_square |].
  intros y x Hy Hx. unfold next_board.
  rewrite cell_tabulate, cell_uniform by done.
  unfold next_cell. rewrite nbors9_uniform, cell_uniform by lia.
  by destruct v.
Qed.

(** The board of a single alive cell, which is its own neighbour 8 times. *)
Lemma life_uniform_witness : life (uniform 1 true) = Some (uniform 1 false).
Proof. apply (life_uniform 1 true). vm_compute. discriminate. Defined.

(** ** Rows and columns *)

Section Transposition.

Context (N : nat) (b : Matrix) (Hsq : square N b).

Lemma transpose_square : square N (transpose b).
Proof using Hsq.
  unfold transpose. rewrite (square_length N b Hsq). apply tabulate_square.
Qed.

Lemma cell_transpose y x :
  (y < N)%nat → (x < N)%nat → cell (transpose b) y x = cell b x y.
Proof using Hsq.
  intros Hy Hx. unfold transpose. rewrite (square_length N b Hsq).
  by rewrite cell_tabulate.
Qed.

Lemma nbors9_transpose y x :
  (y < N)%nat → (x < N)%nat →
  nbors9 N (transpose b) x y = nbors9 N b y x.
Proof using Hsq.
  intros Hy Hx. unfold nbors9, alive_around.
  change offsets9 with
    [(-1, -1); (-1, 0); (-1, 1); (0, -1); (0, 0); (0, 1); (1, -1); (1, 0); (1, 1)].
  cbn [fmap list_fmap sum_list sum_list_with fst snd id].
  rewrite !cell_transpose by (apply torus_lt; lia). lia.
Qed.

End Transposition.

(** X4.  [life] treats rows and columns alike: on a square board, [life] of the
    transposed board is the transposed result of [life]. *)
Theorem life_transpose (N : nat) (b : Matrix) :
  square N b → Z.of_nat N ≤ INT_MAX →
  ∃ b', life b = Some b' ∧ life (transpose b) = Some (transpose b').
Proof.
  intros Hsq HN. exists (next_board N b). split; [by apply life_spec |].
  pose proof (tabulate_square N (next_cell N b)) as Hnext.
  rewrite (life_spec N) by (done || by apply transpose_square).
  f_equal. apply (square_ext N);
    [apply tabulate_square | by apply transpose_square |].
  intros y x Hy Hx. unfold next_board at 1.
  rewrite cell_tabulate by done.
  rewrite (cell_transpose N (next_board N b) Hnext) by done.
  unfold next_board. rewrite cell_tabulate by done.
  unfold next_cell.
  by rewrite (cell_transpose N b Hsq), (nbors9_transpose N b Hsq).
Qed.

(** The horizontal blinker and its transpose. *)
Lemma life_transpose_witness :
  ∃ b', life blinker_h = Some b'
        ∧ life (transpose blinker_h) = Some (transpose b').
Proof.
  apply (life_transpose 5 blinker_h).
  - split; [reflexivity |]. repeat constructor.
  - vm_compute. discriminate.
Defined.

(** ** The bounds of [countNbors] and of the board *)

Lemma for_each_bound {I : Type} (d : nat) (body : I → nat → option nat)
    (range : list I) : ∀ count count',
  (∀ i c c', body i c = Some c' → (c' ≤ c + d)%nat) →
  for_each body range count = Some count' →
  (count' ≤ count + d * length range)%nat.
Proof.
  induction range as [| i range IH]; intros count count' Hbody Hrun.
  - simpl in *. injection Hrun as <-. lia.
  - simpl in Hrun. destruct (body i count) as [c1 |] eqn:Hc1; [| done].
    simpl in Hrun. apply Hbody in Hc1. apply IH in Hrun; [| done].
    simpl. lia.
Qed.

(** X5.  Whatever the board and the cell, also out of the board: when
    [countNbors] returns, the count is at most 9. *)
Theorem countNbors_at_most_9 (b : Matrix) (x y count : nat) :
  countNbors b x y = Some count → (count ≤ 9)%nat.
Proof.
  unfold countNbors. intros Hcount.
  apply (for_each_bound 3) in Hcount; [simpl in Hcount; lia |].
  intros i c c' Hrow.
  apply (for_each_bound 1) in Hrow; [simpl in Hrow; lia |].
  intros j c1 c2. unfold countNbors_body.
  destruct (wrapped x j _ _); [| done]. simpl.
  destruct (wrapped y i _ _); [| done]. simpl.
  destruct (at2_int b _ _) as [[|] |]; [| | done]; simpl;
    intros [= <-]; lia.
Qed.

(** A cell of the plus sign with 4 alive neighbours. *)
Lemma countNbors_at_most_9_witness :
  countNbors plus_sign 2 2 = Some 5%nat ∧ (5 ≤ 9)%nat.
Proof.
  split; [reflexivity |].
  apply (countNbors_at_most_9 plus_sign 2 2 5). reflexivity.
Defined.

(** X6.  On the board without rows [countNbors] is undefined for every cell, by
    the remainder modulo the dimension 0; [life] does not call it there and
    returns the board without rows. *)
Theorem countNbors_empty_board (x y : nat) :
  countNbors [] x y = None ∧ life [] = Some [].
Proof.
  split; [| reflexivity].
  unfold countNbors, countNbors_body, wrapped.
  change (seqZ (-1) 3) with [-1; 0; 1]. cbn [for_each length].
  by destruct (int_add (to_int (Z.of_nat x)) (-1)).
Qed.

Lemma for_each_fails {I S : Type} (body : I → S → option S) (range : list I)
    (i : I) : ∀ s,
  i ∈ range → (∀ s, body i s = None) → for_each body range s = None.
Proof.
  induction range as [| i' range IH]; intros s Hin Hnone.
  - by apply elem_of_nil in Hin.
  - simpl. apply elem_of_cons in Hin as [<- | Hin]; [by rewrite Hnone |].
    destruct (body i' s); simpl; [by apply IH | done].
Qed.

(** X7.  [life] visits the columns below the number of rows in every row: on a
    board with a row that is shorter than the number of rows, it reads past
    the end of that row, which is undefined. *)
Theorem life_short_row (b : Matrix) (y x : nat) :
  (y < length b)%nat → (x < length b)%nat → at2 b y x = None →
  life b = None.
Proof.
  intros Hy Hx Hnone. rewrite life_row_major. unfold life_in_order.
  apply (for_each_fails _ _ (y, x)); [by apply elem_of_cells |].
  intros newBoard. unfold life_body. cbn [fst snd]. rewrite Hnone.
  by destruct (countNbors b x y).
Qed.

(** Two rows, the second of one cell only. *)
Lemma life_short_row_witness : life [[true; false]; [true]] = None.
Proof.
  apply (life_short_row [[true; false]; [true]] 1 1).
  - simpl. lia.
  - simpl. lia.
  - reflexivity.
Defined.

(** ** The random board *)

Lemma lookup_cells N : ∀ M a y x,
  (y < M)%nat → (x < N)%nat →
  (y' ← seq a M; (fun x' => (y', x')) <$> seq 0 N) !! (y * N + x)%nat
  = Some ((a + y)%nat, x).
Proof.
  induction M as [| M IH]; intros a y x Hy Hx; [lia |].
  cbn [seq]. rewrite bind_cons. destruct y as [| y].
  - rewrite lookup_app_l by (rewrite length_fmap, length_seq; lia).
    rewrite list_lookup_fmap, lookup_seq_lt by lia. simpl.
    by rewrite Nat.add_0_r.
  - rewrite lookup_app_r by (rewrite length_fmap, length_seq; lia).
    rewrite length_fmap, length_seq.
    replace (S y * N + x - N)%nat with (y * N + x)%nat by lia.
    rewrite IH by lia. do 2 f_equal. lia.
Qed.

Lemma NoDup_cells N : NoDup (cells N).
Proof.
  unfold cells. rewrite bind_pairs. apply NoDup_bind.
  - intros y1 y2 [y x] _ _ Hin1 Hin2.
    apply list_elem_of_fmap in Hin1 as (? & [= -> _] & _).
    by apply list_elem_of_fmap in Hin2 as (? & [= -> _] & _).
  - intros y _. apply NoDup_fmap_2; [| apply NoDup_seq].
    by intros x1 x2 [= ->].
  - apply NoDup_seq.
Qed.

Lemma coin_odd r : negb (Z.rem r 2 =? 0) = Z.odd r.
Proof.
  symmetry. apply Zodd_rem.
Qed.

Section Random_values.

Context {RandState : Type}.
Variable rand : RandState → Z * RandState.
Context (N : nat) (g : RandState).

Lemma randBoard_body_spec k y x (board : Matrix) :
  square N board → (y < N)%nat → (x < N)%nat →
  ∃ board',
    randBoard_body rand y x (rand_state rand k g, board)
    = Some (rand_state rand (S k) g, board')
    ∧ square N board'
    ∧ ∀ y' x', cell board' y' x'
               = if decide (y' = y ∧ x' = x)
                 then Z.odd (rand_value rand k g)
                 else cell board y' x'.
Proof.
  intros Hsq Hy Hx. unfold randBoard_body, rand_value. cbn [fst snd rand_state].
  destruct (rand (rand_state rand k g)) as [r g1]. rewrite int_rem_pos by lia.
  simpl. rewrite coin_odd.
  destruct (assign2_spec N board y x (Z.odd r) Hsq Hy Hx)
    as (board' & -> & Hsq' & Hcells).
  by exists board'.
Qed.

(** The cells of a list without repetition receive the successive values of
    the generator, the other cells keep their state. *)
Lemma randBoard_cells_spec (order : list (nat * nat)) : ∀ k (board : Matrix),
  NoDup order →
  (∀ y x, (y, x) ∈ order → (y < N)%nat ∧ (x < N)%nat) →
  square N board →
  ∃ board',
    for_each (fun c => randBoard_body rand c.1 c.2) order
             (rand_state rand k g, board)
    = Some (rand_state rand (k + length order) g, board')
    ∧ square N board'
    ∧ (∀ i y x, order !! i = Some (y, x) →
         cell board' y x = Z.odd (rand_value rand (k + i) g))
    ∧ (∀ y x, (y, x) ∉ order → cell board' y x = cell board y x).
Proof.
  induction order as [| [y0 x0] order IH]; intros k board Hnodup Hrange Hsq.
  - exists board. simpl. rewrite Nat.add_0_r. split_and!; done.
  - apply NoDup_cons in Hnodup as [Hnotin Hnodup].
    destruct (Hrange y0 x0) as [Hy0 Hx0]; [by left |].
    destruct (randBoard_body_spec k y0 x0 board Hsq Hy0 Hx0)
      as (board1 & Hbody & Hsq1 & Hcells1).
    destruct (IH (S k) board1 Hnodup) as (board' & Hrun & Hsq' & Hset & Hkeep);
      [| done |].
    { intros y x Hin. apply Hrange. by right. }
    exists board'. cbn [for_each fst snd length]. rewrite Hbody.
    cbn [mbind option_bind]. rewrite Hrun, Nat.add_succ_r.
    split_and!; [done | done | |].
    + intros [| i] y x Hlook; simpl in Hlook.
      * injection Hlook as -> ->. rewrite Hkeep, Hcells1 by done.
        rewrite decide_True by done. by rewrite Nat.add_0_r.
      * rewrite (Hset i y x Hlook). by rewrite Nat.add_succ_r.
    + intros y x Hnotin'. apply not_elem_of_cons in Hnotin' as [Hne Hnotin'].
      rewrite Hkeep, Hcells1 by done. rewrite decide_False; [done |].
      intros [-> ->]. done.
Qed.

End Random_values.

Lemma length_pairs {I J : Type} (ks : list I) (js : list J) :
  length (i ← ks; (fun j => (i, j)) <$> js) = (length ks * length js)%nat.
Proof.
  induction ks as [| i ks IH]; [done |].
  rewrite bind_cons, length_app, length_fmap, IH. simpl. lia.
Qed.

Lemma length_cells N : length (cells N) = (N * N)%nat.
Proof. unfold cells. by rewrite bind_pairs, length_pairs, length_seq. Qed.

(** X9.  [randBoard] on a square board of size N calls [rand] N * N times, once
    for each cell, row by row: the cell in row [y], column [x] is alive
    exactly when the value of call number [y * N + x] is odd.  Nothing of
    the former contents of the board remains. *)
Theorem randBoard_row_major {RandState : Type}
    (rand : RandState → Z * RandState) (g : RandState) (N : nat) (b : Matrix) :
  square N b →
  randBoard rand (g, b)
  = Some (rand_state rand (N * N) g,
          tabulate N (fun y x => Z.odd (rand_value rand (y * N + x) g))).
Proof.
  intros Hsq. rewrite randBoard_cells. cbn [snd].
  rewrite (square_length N b Hsq).
  destruct (randBoard_cells_spec rand N g (cells N) 0 b)
    as (board' & Hrun & Hsq' & Hset & _);
    [apply NoDup_cells | apply elem_of_cells | done |].
  change (rand_state rand 0 g) with g in Hrun. rewrite Hrun.
  rewrite (length_cells N). f_equal. f_equal.
  apply (square_ext N); [done | apply tabulate_square |].
  intros y x Hy Hx. rewrite cell_tabulate by done.
  apply (Hset (y * N + x)%nat). unfold cells. rewrite bind_pairs.
  by rewrite lookup_cells.
Qed.

(** The blinker board and a counter as generator: the cells alternate. *)
Lemma randBoard_row_major_witness :
  randBoard (fun g => (g, g + 1)) (7, blinker_h)
  = Some (rand_state (fun g => (g, g + 1)) (5 * 5) 7,
          tabulate 5 (fun y x =>
            Z.odd (rand_value (fun g => (g, g + 1)) (y * 5 + x) 7))).
Proof.
  apply (randBoard_row_major (fun g => (g, g + 1)) 7 5 blinker_h).
  split; [reflexivity |]. repeat constructor.
Defined.

(** ** No interleaving gets stuck *)

Section Progress.

Context (N : nat) (B1 : Matrix) (Hsq : square N B1).
Context (HN : Z.of_nat N ≤ INT_MAX).
Context (arg : loc) (Harg : arg ≠ board_loc).
Context (σ : gmap loc (list (list bool))).
Context (Hcopy : σ !! arg = Some B1) (Hboard : σ !! board_loc = Some B1).
Context (scr : list curses_call).

Local Abbreviation reached_now := (reached arg B1 (next_board N B1) σ scr).

Lemma reached_steps c c' : steps c c' → reached_now c → reached_now c'.
Proof using Hsq HN Hcopy Hboard Harg.
  induction 1 as [c | t1 t2 w t1' w1 c Hstep _ IH | t1 t2 w t2' w1 c Hstep _ IH];
    intros Hreach; [done | |]; apply IH.
  - by apply (reached_left N B1 Hsq arg Harg σ Hcopy scr t1 t2 w).
  - by apply (reached_right N B1 Hsq HN arg σ Hboard scr t1 t2 w).
Qed.

Lemma print_finishes t1 t2 w :
  reached_now (t1, t2, w) →
  ∃ scr', steps (t1, t2, w) (finished, t2, World (store w) scr').
Proof using Hsq Hcopy Harg.
  intros Hreach.
  pose proof (reached_copy N B1 arg Harg σ Hcopy scr t1 t2 w Hreach) as Hlook.
  destruct Hreach as [[(y & -> & Hy & _) | [-> _]] _].
  - rewrite (square_length N B1 Hsq) in Hy. eexists.
    apply (run_thread_steps_left (S (N - y))).
    apply (run_print N B1 Hsq arg Harg (N - y) y w); [lia | done].
  - exists (screen w). destruct w. apply steps_refl.
Qed.

Lemma life_finishes t1 t2 w :
  reached_now (t1, t2, w) → ∃ w', steps (t1, t2, w) (t1, finished, w').
Proof using Hsq HN Hboard.
  intros [_ [[-> Hσ] | [[-> Hσ] | [-> _]]]].
  - eexists. apply (run_thread_steps_right 2).
    apply (run_life N B1 Hsq HN). by rewrite Hσ.
  - eexists. eapply steps_right; [reflexivity | apply steps_refl].
  - eexists. apply steps_refl.
Qed.

Lemma reached_finishes c :
  reached_now c → ∃ w', steps c (finished, finished, w').
Proof using Hsq HN Hcopy Hboard Harg.
  destruct c as [[t1 t2] w]. intros Hreach.
  destruct (print_finishes t1 t2 w Hreach) as [scr' Hprint].
  pose proof (reached_steps _ _ Hprint Hreach) as Hreach'.
  destruct (life_finishes _ _ _ Hreach') as [w' Hlife].
  exists w'. by apply (steps_trans _ _ _ Hprint).
Qed.

End Progress.

(** X11.  In an iteration of the loop on a square board, the two threads cannot
    get stuck: from every state that an interleaving of their steps
    reaches, be it in the middle of [print] or of [life], the steps can go
    on until both threads have ended; no interleaving runs into undefined
    behaviour. *)
Theorem interleavings_never_stuck (N : nat) (B : Matrix)
    (σ : gmap loc (list (list bool))) (scr : list curses_call) :
  square N B → Z.of_nat N ≤ INT_MAX → σ !! board_loc = Some B →
  ∃ arg w2,
    (w1 ← life_at board_loc (World σ (scr ++ [move 0 0])); spawn w1)
    = Some (print_rows arg 0, life_loops board_loc, w2) ∧
    ∀ c, steps (print_rows arg 0, life_loops board_loc, w2) c →
         ∃ w', steps c (finished, finished, w').
Proof.
  intros Hsq HN Hσ. eexists _, _.
  split; [apply (life_then_spawn N B Hsq HN σ Hσ scr) |].
  intros c Hsteps.
  pose proof (square_B1 N B) as Hsq1.
  apply (reached_finishes N (next_board N B) Hsq1 HN _ (arg_not_board N B σ)
           _ (w2_copy N B σ scr) (w2_board N B σ scr) (scr ++ [move 0 0])).
  apply (reached_steps N (next_board N B) Hsq1 HN _ (arg_not_board N B σ)
           _ (w2_copy N B σ scr) (w2_board N B σ scr) (scr ++ [move 0 0])
           _ _ Hsteps).
  split.
  - left. exists 0%nat. simpl. rewrite app_nil_r. repeat split; lia || done.
  - by left.
Qed.

(** One iteration on the blinker, from an empty terminal. *)
Lemma interleavings_never_stuck_witness :
  ∃ arg w2,
    (w1 ← life_at board_loc (World {[board_loc := blinker_h]} [move 0 0]);
     spawn w1)
    = Some (print_rows arg 0, life_loops board_loc, w2) ∧
    ∀ c, steps (print_rows arg 0, life_loops board_loc, w2) c →
         ∃ w', steps c (finished, finished, w').
Proof.
  apply (interleavings_never_stuck 5 blinker_h {[board_loc := blinker_h]} []).
  - split; [reflexivity |]. repeat constructor.
  - vm_compute. discriminate.
  - reflexivity.
Defined.

(** ** The generations of the main loop *)

Section Generations.

Context (N : nat) (HN : Z.of_nat N ≤ INT_MAX).

Lemma generations_S n (B : Matrix) :
  square N B → generations (S n) B = generations n (next_board N B).
Proof using HN. intros Hsq. simpl. by rewrite (life_spec N B Hsq HN). Qed.

Lemma generations_square n : ∀ B : Matrix,
  square N B → ∃ B', generations n B = Some B' ∧ square N B'.
Proof using HN.
  induction n as [| n IH]; intros B Hsq; [by exists B |].
  rewrite generations_S by done. apply IH, tabulate_square.
Qed.

Lemma shown_0 (B : Matrix) :
  square N B → shown B 0 = [move 0 0] ++ frame (next_board N B).
Proof using HN.
  intros Hsq. unfold shown. change (2 * 0 + 1)%nat with 1%nat.
  by rewrite generations_S.
Qed.

Lemma shown_S (B : Matrix) i :
  square N B →
  shown B (S i) = shown (next_board N (next_board N B)) i.
Proof using HN.
  intros Hsq. unfold shown.
  replace (2 * S i + 1)%nat with (S (S (2 * i + 1))) by lia.
  by rewrite !generations_S by (done || apply tabulate_square).
Qed.

Lemma drawn_S (B : Matrix) k :
  square N B →
  drawn (S k) B
  = [move 0 0] ++ frame (next_board N B)
    ++ drawn k (next_board N (next_board N B)).
Proof using HN.
  intros Hsq. unfold drawn. cbn [seq]. rewrite bind_cons, shown_0 by done.
  rewrite <- app_assoc. do 2 f_equal.
  rewrite <- fmap_S_seq. generalize (seq 0 k). intros l.
  induction l as [| i l IH]; [done |].
  by rewrite fmap_cons, !bind_cons, IH, shown_S.
Qed.

(** The loop on keys other than the quit key. *)
Lemma main_loop_run (keys : list Z) : ∀ (B : Matrix) scr rest,
  square N B → 113 ∉ keys →
  ∃ B', generations (2 * length keys) B = Some B' ∧ square N B' ∧
        main_loop (keys ++ rest) (World {[board_loc := B]} scr)
        = main_loop rest (World {[board_loc := B']}
                                (scr ++ drawn (length keys) B)).
Proof using HN.
  induction keys as [| key keys IH]; intros B scr rest Hsq Hkeys.
  - exists B. simpl. by rewrite app_nil_r.
  - apply not_elem_of_cons in Hkeys as [Hkey Hkeys].
    pose proof (tabulate_square N (next_cell N B)) as Hsq1.
    pose proof (tabulate_square N (next_cell N (next_board N B))) as Hsq2.
    destruct (IH (next_board N (next_board N B))
                 (scr ++ [move 0 0] ++ frame (next_board N B)) rest Hsq2 Hkeys)
      as (B' & Hgen & Hsq' & Hloop).
    exists B'. split_and!; [| done |].
    + cbn [length]. replace (2 * S (length keys))%nat
        with (S (S (2 * length keys))) by lia.
      by rewrite !generations_S.
    + cbn [app main_loop length]. destruct (Z.eqb_spec key 113); [done |].
      rewrite (loop_body_spec N B Hsq HN) by apply lookup_singleton_eq.
      rewrite insert_singleton_eq, Hloop, drawn_S by done.
      by rewrite <- !app_assoc.
Qed.

End Generations.

Lemma split_at_quit (keys : list Z) :
  ∃ before rest, keys = before ++ rest ∧ (113 ∉ before)
                 ∧ (rest = [] ∨ ∃ after, rest = 113 :: after).
Proof.
  induction keys as [| key keys (before & rest & -> & Hbefore & Hrest)].
  - exists [], []. split_and!; [done | apply not_elem_of_nil | by left].
  - destruct (decide (key = 113)) as [-> | Hne].
    + exists [], (113 :: before ++ rest).
      split_and!; [done | apply not_elem_of_nil | right; by eexists].
    + exists (key :: before), rest.
      split_and!; [done | | done]. by apply not_elem_of_cons.
Qed.

(** X12.  Every call of [getch] that returns another key than the quit key makes
    the loop of [main] draw one frame and advance the board by two
    generations: after [k] such keys and the quit key the board is
    generation [2 k], the terminal has received the frames of the
    generations 1, 3, ..., [2 k - 1], each after a move of the cursor to
    the origin, and the keys after the quit key are not read.  Without quit
    key the loop goes on. *)
Theorem main_loop_generations (N : nat) (B : Matrix) (scr : list curses_call)
    (keys rest : list Z) :
  square N B → Z.of_nat N ≤ INT_MAX → 113 ∉ keys →
  ∃ B', generations (2 * length keys) B = Some B' ∧
        main_loop (keys ++ 113 :: rest) (World {[board_loc := B]} scr)
        = quit (World {[board_loc := B']} (scr ++ drawn (length keys) B)) ∧
        main_loop keys (World {[board_loc := B]} scr)
        = waiting (World {[board_loc := B']} (scr ++ drawn (length keys) B)).
Proof.
  intros Hsq HN Hkeys.
  destruct (main_loop_run N HN keys B scr (113 :: rest) Hsq Hkeys)
    as (B' & Hgen & _ & Hquit).
  destruct (main_loop_run N HN keys B scr [] Hsq Hkeys)
    as (B'' & Hgen' & _ & Hwait).
  rewrite Hgen in Hgen'. injection Hgen' as <-.
  exists B'. split_and!; [done | by rewrite Hquit |].
  by rewrite app_nil_r in Hwait.
Qed.

(** Two idle polls of the keyboard, the quit key, and a key that is never
    read, from the blinker. *)
Lemma main_loop_generations_witness :
  ∃ B', generations (2 * length [-1; -1]) blinker_h = Some B' ∧
        main_loop ([-1; -1] ++ 113 :: [97])
                  (World {[board_loc := blinker_h]} [])
        = quit (World {[board_loc := B']}
                      ([] ++ drawn (length [-1; -1]) blinker_h)) ∧
        main_loop [-1; -1] (World {[board_loc := blinker_h]} [])
        = waiting (World {[board_loc := B']}
                         ([] ++ drawn (length [-1; -1]) blinker_h)).
Proof.
  apply (main_loop_generations 5 blinker_h [] [-1; -1] [97]).
  - split; [reflexivity |]. repeat constructor.
  - vm_compute. discriminate.
  - intros Hin. repeat (apply elem_of_cons in Hin as [Hin | Hin]; [lia |]).
    by apply elem_of_nil in Hin.
Defined.

(** ** The ways in which [main] ends *)

Section Outcomes.

Context {RandState : Type}.
Variable srand : Z → RandState.
Variable rand : RandState → Z * RandState.

Local Ltac failure_exit :=
  left; eexists; split; [done |]; split; cycle 1; [reflexivity | done].

(** The five ways: a command line without the name of the program, a usage
    error, an exception of [stoi], the quit key, or no quit key yet. *)
Lemma main_outcome (argVector : list string) (now : Z) (keys : list Z) :
  (argVector = []
   ∧ main srand rand argVector now keys = ([], [], undefined_behaviour))
  ∨ (∃ out, argVector ≠ [] ∧ out ≠ []
            ∧ main srand rand argVector now keys
              = (out, [], exited EXIT_FAILURE))
  ∨ (∃ e, argVector ≠ []
          ∧ main srand rand argVector now keys = ([], [], terminated e))
  ∨ (∃ mid, argVector ≠ [] ∧ 113 ∈ keys
            ∧ main srand rand argVector now keys
              = ([], initialize ++ mid ++ [endwin], exited EXIT_SUCCESS))
  ∨ (∃ mid, argVector ≠ [] ∧ (113 ∉ keys)
            ∧ main srand rand argVector now keys
              = ([], initialize ++ mid, running)).
Proof.
  destruct argVector as [| name [| a [| a' rest]]]; [by left | | |];
    right; unfold main, checkArgs.
  { rewrite decide_True by (simpl; lia). failure_exit. }
  2: { rewrite decide_True by (simpl; lia). failure_exit. }
  rewrite decide_False by (by intros ?).
  cbn [lookup list_lookup mbind option_bind fmap option_fmap option_map].
  destruct (stoi a) as [e | dim]; [right; left; by eexists |].
  destruct (Z.ltb_spec dim 0); [failure_exit |].
  destruct (Z.ltb_spec 40 dim); [failure_exit |].
  right. right. cbn [orb].
  rewrite to_size_t_small by (unfold SIZE_MODULUS; lia).
  pose proof (replicate_square (Z.to_nat dim)) as Hsq0.
  destruct (randBoard_prefix_square rand (Z.to_nat dim) (cells (Z.to_nat dim))
              (srand now, replicate (Z.to_nat dim) (replicate (Z.to_nat dim) false)))
    as ([g board] & Hrand & Hsq); [done | apply elem_of_cells |].
  rewrite randBoard_cells. cbn [snd] in *.
  rewrite (square_length _ _ Hsq0), Hrand.
  assert (HN : Z.of_nat (Z.to_nat dim) ≤ INT_MAX) by (unfold INT_MAX; lia).
  destruct (split_at_quit keys)
    as (before & rest & -> & Hbefore & [-> | [after ->]]).
  - right.
    destruct (main_loop_run _ HN before board initialize [] Hsq Hbefore)
      as (B' & _ & _ & ->).
    rewrite app_nil_r. by eexists.
  - left.
    destruct (main_loop_run _ HN before board initialize (113 :: after)
                Hsq Hbefore) as (B' & _ & _ & ->).
    eexists. split_and!; [done | |
      cbn [main_loop Z.eqb Pos.eqb screen]; by rewrite <- app_assoc].
    apply elem_of_app. right. by left.
Qed.

End Outcomes.

Section Ends.

Context {RandState : Type}.
Variable srand : Z → RandState.
Variable rand : RandState → Z * RandState.

(** X13.  Whatever the clock, the generator and the keys: [main] runs into
    undefined behaviour exactly on the command line without any string,
    where [checkArgs] writes the null [argVector[0]] to [cout].  On every
    command line that holds the name of the program there is no access out
    of a vector, no division by zero and no overflow of an [int]. *)
Theorem main_undefined_iff_no_name (argVector : list string) (now : Z)
    (keys : list Z) :
  (main srand rand argVector now keys).2 = undefined_behaviour
  ↔ argVector = [].
Proof.
  destruct (main_outcome srand rand argVector now keys)
    as [[-> ->] | [(out & Hne & _ & ->) | [(e & Hne & ->)
       | [(mid & Hne & _ & ->) | (mid & Hne & _ & ->)]]]];
    done.
Qed.


(** X15.  When [main] exits with success, [getch] has returned the quit key,
    nothing was written to [cout], and the calls to the terminal start with
    those of [initialize] and end with [endwin]. *)
Theorem main_success (argVector : list string) (now : Z) (keys : list Z) :
  (main srand rand argVector now keys).2 = exited EXIT_SUCCESS →
  113 ∈ keys ∧
  (main srand rand argVector now keys).1.1 = [] ∧
  ∃ mid, (main srand rand argVector now keys).1.2
         = initialize ++ mid ++ [endwin].
Proof.
  destruct (main_outcome srand rand argVector now keys)
    as [[_ ->] | [(out & _ & _ & ->) | [(e & _ & ->)
       | [(mid & _ & Hquit & ->) | (mid & _ & _ & ->)]]]];
    cbn [fst snd]; try done.
  intros _. split_and!; [done | done | by exists mid].
Qed.

End Ends.


(** The dimension 3 and the quit key at the second call of [getch]. *)
Lemma main_success_witness :
  113 ∈ [-1; 113] ∧
  (main (fun seed => seed) (fun g => (g, g + 1)) ["life"; "3"] 0 [-1; 113]).1.1
  = [] ∧
  ∃ mid,
    (main (fun seed => seed) (fun g => (g, g + 1)) ["life"; "3"] 0 [-1; 113]).1.2
    = initialize ++ mid ++ [endwin].
Proof.
  apply (main_success (fun seed => seed) (fun g => (g, g + 1))
           ["life"; "3"] 0 [-1; 113]).
  reflexivity.
Defined.

(** ** What [print] sends to the terminal *)

Lemma count_calls_app p l1 l2 :
  count_calls p (l1 ++ l2) = (count_calls p l1 + count_calls p l2)%nat.
Proof.
  unfold count_calls. induction l1 as [| c l1 IH]; [done |].
  cbn [app fmap list_fmap sum_list sum_list_with] in *. rewrite IH. lia.
Qed.

Lemma count_calls_bind {A : Type} p (f : A → list curses_call) (l : list A) :
  count_calls p (l ≫= f) = sum_list ((fun a => count_calls p (f a)) <$> l).
Proof.
  induction l as [| a l IH]; [done |].
  by rewrite bind_cons, count_calls_app, IH.
Qed.

Lemma sum_list_const {A : Type} (c : nat) (l : list A) :
  sum_list ((fun _ => c) <$> l) = (length l * c)%nat.
Proof.
  induction l as [| a l IH]; [done |].
  rewrite fmap_cons. cbn [sum_list_with length]. rewrite IH. unfold id. lia.
Qed.

(** X10.  On a square board of size N, [print] adds to the calls already made N
    times N blocks of two spaces, and switches the colour on for exactly as
    many of them as the board has alive cells. *)
Theorem print_highlights (N : nat) (b : Matrix) (scr : list curses_call) :
  square N b →
  ∃ out, print b scr = Some out ∧
         count_calls is_block out = (count_calls is_block scr + N * N)%nat ∧
         count_calls is_attron out
         = (count_calls is_attron scr + population b)%nat.
Proof.
  intros Hsq. exists (scr ++ frame b). split; [by apply (print_spec N) |].
  unfold frame, rows_above, population.
  rewrite !count_calls_app, !count_calls_bind, (square_length N b Hsq).
  change (count_calls is_block print_end) with 0%nat.
  change (count_calls is_attron print_end) with 0%nat.
  rewrite !Nat.add_0_r. split; f_equal.
  - transitivity (length (seq 0 N) * N)%nat; [| by rewrite length_seq].
    rewrite <- sum_list_const.
    f_equal. apply list_fmap_ext. intros _ y _. unfold row_calls.
    rewrite count_calls_app, count_calls_bind, (square_length N b Hsq).
    change (count_calls is_block [addstr newline; refresh]) with 0%nat.
    rewrite Nat.add_0_r.
    transitivity (length (seq 0 N) * 1)%nat; [| rewrite length_seq; lia].
    rewrite <- sum_list_const.
    f_equal. apply list_fmap_ext. intros _ x _. by destruct (cell b y x).
  - f_equal. apply list_fmap_ext. intros _ y _. unfold row_calls.
    rewrite count_calls_app, count_calls_bind, (square_length N b Hsq).
    change (count_calls is_attron [addstr newline; refresh]) with 0%nat.
    rewrite Nat.add_0_r.
    f_equal. apply list_fmap_ext. intros _ x _. by destruct (cell b y x).
Qed.

(** The blinker: 25 blocks, 3 of them coloured. *)
Lemma print_highlights_witness :
  ∃ out, print blinker_h [] = Some out ∧
         count_calls is_block out = (count_calls is_block [] + 5 * 5)%nat ∧
         count_calls is_attron out
         = (count_calls is_attron [] + population blinker_h)%nat.
Proof.
  apply (print_highlights 5 blinker_h []).
  split; [reflexivity |]. repeat constructor.
Defined.

(** ** The two boards of [life] *)

(** X8.  [life] writes the new states to its copy and reads the old ones from
    the board it was given: after any number of iterations of its loops on
    a square board, every cell visited so far holds the state that it has
    in the result of [life], and every other cell still holds its old
    state.  No new state is computed from a neighbour that was already
    updated. *)
Theorem life_double_buffer (N : nat) (b : Matrix) :
  square N b → Z.of_nat N ≤ INT_MAX →
  ∃ b', life b = Some b' ∧
    ∀ k, ∃ newBoard,
      life_in_order (take k (cells N)) b = Some newBoard ∧
      ∀ y x, cell newBoard y x
             = if decide ((y, x) ∈ take k (cells N))
               then cell b' y x else cell b y x.
Proof.
  intros Hsq HN. exists (next_board N b). split; [by apply life_spec |].
  intros k. unfold life_in_order.
  destruct (life_in_order_step N b Hsq HN (take k (cells N)) [] b)
    as (nb & Hnb & _ & Hcells).
  { apply elem_of_take_cells. }
  { split; [done |]. intros y x.
    rewrite decide_False; [done | apply not_elem_of_nil]. }
  exists nb. split; [done |]. intros y x. rewrite Hcells, app_nil_r.
  destruct (decide ((y, x) ∈ take k (cells N))) as [Hin | Hnotin].
  - rewrite decide_True by by apply elem_of_reverse.
    destruct (elem_of_take_cells N k y x Hin).
    unfold next_board. by rewrite cell_tabulate.
  - rewrite decide_False; [done |]. by rewrite elem_of_reverse.
Qed.

(** The blinker, its loops stopped at any point. *)
Lemma life_double_buffer_witness :
  ∃ b', life blinker_h = Some b' ∧
    ∀ k, ∃ newBoard,
      life_in_order (take k (cells 5)) blinker_h = Some newBoard ∧
      ∀ y x, cell newBoard y x
             = if decide ((y, x) ∈ take k (cells 5))
               then cell b' y x else cell blinker_h y x.
Proof.
  apply (life_double_buffer 5 blinker_h).
  - split; [reflexivity |]. repeat constructor.
  - vm_compute. discriminate.
Defined.
